(** * BlackJack: a shallow embedding of the two console programs

    The repository holds two copies of one console game:
    [src/francescoversion.py] and [src/unnamed/part_000] (a file whose
    header names it "backup 2.py").  Each is embedded in a module of its
    own ([Francesco], [Backup2]), translated function by function from its
    own text; the data they share (cards, the Python runtime pieces they
    call) is declared once, before the two modules. *)

From Stdlib Require Import ZArith List Bool Lia Permutation.
From Stdlib Require Import Floats.SpecFloat.
Import ListNotations.
Local Open Scope Z_scope.

(** ** Cards

    A card is the dict [{"value": v, "suit": s}] of [create_deck]; the two
    keys only ever hold the strings listed there, so both are enumerations. *)

Inductive Value :=
  | Two | Three | Four | Five | Six | Seven | Eight | Nine | Ten
  | Jack | Queen | King | Ace.

Inductive Suit := Hearts | Diamonds | Clubs | Spades.

Record card := { value : Value; suit : Suit }.

Definition Value_eqb (a b : Value) : bool :=
  match a, b with
  | Two, Two | Three, Three | Four, Four | Five, Five | Six, Six
  | Seven, Seven | Eight, Eight | Nine, Nine | Ten, Ten
  | Jack, Jack | Queen, Queen | King, King | Ace, Ace => true
  | _, _ => false
  end.

(** ** The pieces of the Python runtime the programs rely on *)

(** Exceptions the round can end with: [list.pop] on an empty list,
    [input] at the end of the input, and the two integer/float conversions
    of [int(bet * 2.5)]. *)
Inductive exn := IndexError | EOFError | OverflowError | ValueError.

Inductive result (T : Type) :=
  | Ok (t : T)
  | Raise (e : exn).
Arguments Ok {T} t.
Arguments Raise {T} e.

Definition bind {T U : Type} (r : result T) (k : T -> result U) : result U :=
  match r with
  | Ok t => k t
  | Raise e => Raise e
  end.

Notation "x <- r ;; k" := (bind r (fun x => k))
  (at level 61, r at next level, right associativity).
Notation "' p <- r ;; k" := (bind r (fun p => k))
  (at level 61, p pattern, r at next level, right associativity).

(** [list.pop()]: removes and returns the last element. *)
Definition pop {T : Type} (l : list T) : result (T * list T) :=
  match rev l with
  | [] => Raise IndexError
  | x :: _ => Ok (x, removelast l)
  end.

(** Python floats are IEEE binary64; [SpecFloat] gives their arithmetic as
    functions on integers. *)
Module Float.

Definition prec : Z := 53.
Definition emax : Z := 1024.

(** [float(n)] for an integer: rounded to nearest, ties to even; an
    integer beyond the largest float raises. *)
Definition of_int (n : Z) : result spec_float :=
  match binary_normalize prec emax n 0 false with
  | S754_infinity _ => Raise OverflowError
  | f => Ok f
  end.

(** The literal [2.5]. *)
Definition lit_2_5 : spec_float := S754_finite false 5629499534213120 (-51).

Definition mul (x y : spec_float) : spec_float := SFmul prec emax x y.

(** [int(x)]: truncation towards zero. *)
Definition to_int (x : spec_float) : result Z :=
  match x with
  | S754_zero _ => Ok 0
  | S754_finite s m e =>
      Ok (cond_Zopp s
            (match e with
             | Zneg p => Z.shiftr (Zpos m) (Zpos p)
             | _ => Z.shiftl (Zpos m) e
             end))
  | S754_infinity _ => Raise OverflowError
  | S754_nan => Raise ValueError
  end.

(** [n * x] with [n] an integer: [n] is converted first. *)
Definition int_mul (n : Z) (x : spec_float) : result spec_float :=
  f <- of_int n ;; Ok (mul f x).

End Float.

(** What the player typed at "Do you want to hit or stay?", after
    [.strip().lower()]: the two accepted words, or anything else. *)
Inductive move := hit | stay | other.

(** The branch of the settlement that a round ended in, named after the
    message it prints. *)
Inductive outcome :=
  | Busted          (* "I'm sorry. You busted! You lose your bet." *)
  | Blackjack       (* "Lucky one! Blackjack! You win 2.5x your bet!" *)
  | DealerBusts     (* "Dealer busts! You win!" *)
  | YouWin          (* "You win!" *)
  | DealerWins      (* "Dealer wins. You lose your bet." *)
  | Push.           (* "Push! It's a tie. Your bet is returned." *)

(** Where the body of one round (from [deck = create_deck()] to the end of
    the iteration of [while player_money > 0]) stands. *)
Inductive pc :=
  | DealPlayer      (* before [player_hand = [deal_card(deck)]] *)
  | DealDealer      (* before [dealer_hand = [deal_card(deck)]] *)
  | PlayerLoop      (* at the head of the player's [while True] *)
  | PlayerDone      (* before [player_total = calculate_total(player_hand)] *)
  | DealerLoop      (* at the head of [while dealer_total < 17] *)
  | Compare         (* before [if dealer_total > 21] *)
  | Settled (o : outcome).

(** The variables of [main] that a round reads and writes, the pending
    answers of the player, and the program point. *)
Record state := {
  deck : list card;
  player_hand : list card;
  dealer_hand : list card;
  player_total : Z;
  dealer_total : Z;
  player_money : Z;
  bet : Z;
  moves : list move;
  at_pc : pc
}.

Definition set_deck (d : list card) (s : state) : state :=
  {| deck := d; player_hand := player_hand s; dealer_hand := dealer_hand s;
     player_total := player_total s; dealer_total := dealer_total s;
     player_money := player_money s; bet := bet s; moves := moves s;
     at_pc := at_pc s |}.

Definition set_player_hand (h : list card) (s : state) : state :=
  {| deck := deck s; player_hand := h; dealer_hand := dealer_hand s;
     player_total := player_total s; dealer_total := dealer_total s;
     player_money := player_money s; bet := bet s; moves := moves s;
     at_pc := at_pc s |}.

Definition set_dealer_hand (h : list card) (s : state) : state :=
  {| deck := deck s; player_hand := player_hand s; dealer_hand := h;
     player_total := player_total s; dealer_total := dealer_total s;
     player_money := player_money s; bet := bet s; moves := moves s;
     at_pc := at_pc s |}.

Definition set_player_total (t : Z) (s : state) : state :=
  {| deck := deck s; player_hand := player_hand s; dealer_hand := dealer_hand s;
     player_total := t; dealer_total := dealer_total s;
     player_money := player_money s; bet := bet s; moves := moves s;
     at_pc := at_pc s |}.

Definition set_dealer_total (t : Z) (s : state) : state :=
  {| deck := deck s; player_hand := player_hand s; dealer_hand := dealer_hand s;
     player_total := player_total s; dealer_total := t;
     player_money := player_money s; bet := bet s; moves := moves s;
     at_pc := at_pc s |}.

Definition set_player_money (m : Z) (s : state) : state :=
  {| deck := deck s; player_hand := player_hand s; dealer_hand := dealer_hand s;
     player_total := player_total s; dealer_total := dealer_total s;
     player_money := m; bet := bet s; moves := moves s;
     at_pc := at_pc s |}.

Definition set_moves (l : list move) (s : state) : state :=
  {| deck := deck s; player_hand := player_hand s; dealer_hand := dealer_hand s;
     player_total := player_total s; dealer_total := dealer_total s;
     player_money := player_money s; bet := bet s; moves := l;
     at_pc := at_pc s |}.

Definition set_pc (p : pc) (s : state) : state :=
  {| deck := deck s; player_hand := player_hand s; dealer_hand := dealer_hand s;
     player_total := player_total s; dealer_total := dealer_total s;
     player_money := player_money s; bet := bet s; moves := moves s;
     at_pc := p |}.

(** The state in which the body of a round starts: the deck as
    [shuffle_deck] left it, the hands and totals of this round not yet
    assigned. *)
Definition start (shuffled : list card) (answers : list move)
                 (money stake : Z) : state :=
  {| deck := shuffled; player_hand := []; dealer_hand := [];
     player_total := 0; dealer_total := 0;
     player_money := money; bet := stake; moves := answers;
     at_pc := DealPlayer |}.

(** Every step but the last three consumes an answer or a card, so this
    many steps end any round. *)
Definition round_fuel (s : state) : nat :=
  (length (moves s) + length (deck s) + 4)%nat.

(** ** src/francescoversion.py *)

Module Francesco.

Definition create_deck : list card :=
  let suits := [Hearts; Diamonds; Clubs; Spades] in
  let values := [Two; Three; Four; Five; Six; Seven; Eight; Nine; Ten;
                 Jack; Queen; King; Ace] in
  let single_deck :=
    flat_map (fun suit => map (fun value => {| value := value; suit := suit |}) values)
             suits in
  let deck := single_deck ++ single_deck in
  deck.

(** [random.shuffle(deck)] reorders the list in place; which order comes
    out is not determined by the program. *)
Definition shuffle_deck (deck shuffled : list card) : Prop :=
  Permutation deck shuffled.

Definition deal_card (deck : list card) : result (card * list card) :=
  pop deck.

Definition card_value (card : card) : Z :=
  let value := value card in
  if existsb (Value_eqb value) [Jack; Queen; King] then 10
  else if Value_eqb value Ace then 11
  else match value with
       | Two => 2 | Three => 3 | Four => 4 | Five => 5 | Six => 6
       | Seven => 7 | Eight => 8 | Nine => 9 | Ten => 10
       | Jack | Queen | King | Ace => 10 (* taken by the branches above *)
       end.

(** The [for card in hand] loop: the running [total] and [aces]. *)
Definition count_hand (hand : list card) : Z * nat :=
  fold_left
    (fun '(total, aces) card =>
       let value := value card in
       let total := total + card_value card in
       if Value_eqb value Ace then (total, S aces) else (total, aces))
    hand (0, 0%nat).

(** [while total > 21 and aces: total -= 10; aces -= 1] *)
Fixpoint adjust_aces (total : Z) (aces : nat) : Z :=
  match aces with
  | O => total
  | S aces' => if total >? 21 then adjust_aces (total - 10) aces' else total
  end.

Definition calculate_total (hand : list card) (has_hit_after_ace : bool) : Z :=
  let '(total, aces) := count_hand hand in
  if has_hit_after_ace then total - Z.of_nat aces * 10
  else adjust_aces total aces.

(** One step of the round: from a program point to the next one. *)
Definition step (s : state) : result state :=
  match at_pc s with
  | DealPlayer => (* line 131 *)
      '(c, deck) <- deal_card (deck s) ;;
      Ok (set_pc DealDealer (set_player_hand [c] (set_deck deck s)))
  | DealDealer => (* line 132 *)
      '(c, deck) <- deal_card (deck s) ;;
      Ok (set_pc PlayerLoop (set_dealer_hand [c] (set_deck deck s)))
  | PlayerLoop => (* lines 138-157 *)
      match moves s with
      | [] => Raise EOFError
      | move :: rest =>
          let s := set_moves rest s in
          match move with
          | other => Ok s (* [continue], line 142 *)
          | hit =>
              '(card, deck) <- deal_card (deck s) ;;
              let s := set_player_hand (player_hand s ++ [card]) (set_deck deck s) in
              let total := calculate_total (player_hand s) false in
              if total >? 21 then Ok (set_pc PlayerDone s)
              else if total =? 21 then Ok (set_pc PlayerDone s)
              else Ok s
          | stay => Ok (set_pc PlayerDone s)
          end
      end
  | PlayerDone => (* lines 159-171 *)
      let s := set_player_total (calculate_total (player_hand s) false) s in
      if player_total s >? 21 then
        Ok (set_pc (Settled Busted) (set_player_money (player_money s - bet s) s))
      else if (Z.of_nat (length (player_hand s)) =? 2) && (player_total s =? 21) then
        x <- Float.int_mul (bet s) Float.lit_2_5 ;;
        win <- Float.to_int x ;;
        Ok (set_pc (Settled Blackjack) (set_player_money (player_money s + win) s))
      else
        let s := set_dealer_total (calculate_total (dealer_hand s) false) s in
        Ok (set_pc DealerLoop s)
  | DealerLoop => (* lines 174-181 *)
      if dealer_total s <? 17 then
        '(card, deck) <- deal_card (deck s) ;;
        let s := set_dealer_hand (dealer_hand s ++ [card]) (set_deck deck s) in
        let s := set_dealer_total (calculate_total (dealer_hand s) false) s in
        if dealer_total s >? 21 then Ok (set_pc Compare s) else Ok s
      else Ok (set_pc Compare s)
  | Compare => (* lines 187-198 *)
      if dealer_total s >? 21 then
        Ok (set_pc (Settled DealerBusts) (set_player_money (player_money s + bet s) s))
      else if player_total s >? dealer_total s then
        Ok (set_pc (Settled YouWin) (set_player_money (player_money s + bet s) s))
      else if player_total s <? dealer_total s then
        Ok (set_pc (Settled DealerWins) (set_player_money (player_money s - bet s) s))
      else
        Ok (set_pc (Settled Push) s)
  | Settled _ => Ok s (* the round is over *)
  end.

(** At most [n] steps, stopping at the end of the round. *)
Fixpoint run (n : nat) (s : state) : result state :=
  match n with
  | O => Ok s
  | S n' =>
      match at_pc s with
      | Settled _ => Ok s (* the round is over *)
      | _ => s' <- step s ;; run n' s'
      end
  end.

(** The round of one iteration of [while player_money > 0]: from
    [deck = create_deck()] to the outcome (lines 128-198), for the deck that
    [shuffle_deck] left, the answers the player will type, and a bet that
    passed the checks of [main].  The line printed after the outcome (line
    200) is not part of it. *)
Definition play_round (shuffled : list card) (answers : list move)
                      (player_money bet : Z) : result state :=
  let s := start shuffled answers player_money bet in
  run (round_fuel s) s.

End Francesco.

(** ** src/unnamed/part_000 ("backup 2.py") *)

Module Backup2.

Definition create_deck : list card :=
  let suits := [Hearts; Diamonds; Clubs; Spades] in
  let values := [Two; Three; Four; Five; Six; Seven; Eight; Nine; Ten;
                 Jack; Queen; King; Ace] in
  let single_deck :=
    flat_map (fun suit => map (fun value => {| value := value; suit := suit |}) values)
             suits in
  let deck := single_deck ++ single_deck in
  deck.

(** [random.shuffle(deck)]: some reordering of the list, in place. *)
Definition shuffle_deck (deck shuffled : list card) : Prop :=
  Permutation deck shuffled.

Definition deal_card (deck : list card) : result (card * list card) :=
  pop deck.

Definition card_value (card : card) : Z :=
  let value := value card in
  if existsb (Value_eqb value) [Jack; Queen; King] then 10
  else if Value_eqb value Ace then 11
  else match value with
       | Two => 2 | Three => 3 | Four => 4 | Five => 5 | Six => 6
       | Seven => 7 | Eight => 8 | Nine => 9 | Ten => 10
       | Jack | Queen | King | Ace => 10 (* taken by the branches above *)
       end.

(** "First pass to calculate the total and count aces". *)
Definition count_hand (hand : list card) : Z * nat :=
  fold_left
    (fun '(total, aces) card =>
       let value := value card in
       let total := total + card_value card in
       if Value_eqb value Ace then (total, S aces) else (total, aces))
    hand (0, 0%nat).

(** "Adjust Aces to 11 only if the player stays and the total doesn't
    exceed 21": [while total > 21 and aces: total -= 10; aces -= 1] *)
Fixpoint adjust_aces (total : Z) (aces : nat) : Z :=
  match aces with
  | O => total
  | S aces' => if total >? 21 then adjust_aces (total - 10) aces' else total
  end.

Definition calculate_total (hand : list card) (has_hit_after_ace : bool) : Z :=
  let '(total, aces) := count_hand hand in
  if has_hit_after_ace then total - Z.of_nat aces * 10 (* "Treat all Aces as 1 if hit after Ace" *)
  else adjust_aces total aces.

(** One step of the round of this file's [main]. *)
Definition step (s : state) : result state :=
  match at_pc s with
  | DealPlayer => (* line 138 *)
      '(c, deck) <- deal_card (deck s) ;;
      Ok (set_pc DealDealer (set_player_hand [c] (set_deck deck s)))
  | DealDealer => (* line 139 *)
      '(c, deck) <- deal_card (deck s) ;;
      Ok (set_pc PlayerLoop (set_dealer_hand [c] (set_deck deck s)))
  | PlayerLoop => (* lines 145-164 *)
      match moves s with
      | [] => Raise EOFError
      | move :: rest =>
          let s := set_moves rest s in
          match move with
          | other => Ok s (* [continue], line 149 *)
          | hit =>
              '(card, deck) <- deal_card (deck s) ;;
              let s := set_player_hand (player_hand s ++ [card]) (set_deck deck s) in
              let total := calculate_total (player_hand s) false in
              if total >? 21 then Ok (set_pc PlayerDone s)
              else if total =? 21 then Ok (set_pc PlayerDone s)
              else Ok s
          | stay => Ok (set_pc PlayerDone s)
          end
      end
  | PlayerDone => (* lines 166-179 *)
      let s := set_player_total (calculate_total (player_hand s) false) s in
      if player_total s >? 21 then
        Ok (set_pc (Settled Busted) (set_player_money (player_money s - bet s) s))
      else if (Z.of_nat (length (player_hand s)) =? 2) && (player_total s =? 21) then
        x <- Float.int_mul (bet s) Float.lit_2_5 ;;
        win <- Float.to_int x ;;
        Ok (set_pc (Settled Blackjack) (set_player_money (player_money s + win) s))
      else
        let s := set_dealer_total (calculate_total (dealer_hand s) false) s in
        Ok (set_pc DealerLoop s)
  | DealerLoop => (* lines 183-190 *)
      if dealer_total s <? 17 then
        '(card, deck) <- deal_card (deck s) ;;
        let s := set_dealer_hand (dealer_hand s ++ [card]) (set_deck deck s) in
        let s := set_dealer_total (calculate_total (dealer_hand s) false) s in
        if dealer_total s >? 21 then Ok (set_pc Compare s) else Ok s
      else Ok (set_pc Compare s)
  | Compare => (* lines 197-208 *)
      if dealer_total s >? 21 then
        Ok (set_pc (Settled DealerBusts) (set_player_money (player_money s + bet s) s))
      else if player_total s >? dealer_total s then
        Ok (set_pc (Settled YouWin) (set_player_money (player_money s + bet s) s))
      else if player_total s <? dealer_total s then
        Ok (set_pc (Settled DealerWins) (set_player_money (player_money s - bet s) s))
      else
        Ok (set_pc (Settled Push) s)
  | Settled _ => Ok s (* the round is over *)
  end.

(** At most [n] steps, stopping at the end of the round. *)
Fixpoint run (n : nat) (s : state) : result state :=
  match n with
  | O => Ok s
  | S n' =>
      match at_pc s with
      | Settled _ => Ok s (* the round is over *)
      | _ => s' <- step s ;; run n' s'
      end
  end.

(** One round, from "Create and shuffle deck." to the outcome (lines
    135-208); the line printed after it (line 210) is not part of it. *)
Definition play_round (shuffled : list card) (answers : list move)
                      (player_money bet : Z) : result state :=
  let s := start shuffled answers player_money bet in
  run (round_fuel s) s.

End Backup2.

#[local] Arguments Z.mul : simpl never.
#[local] Arguments Z.add : simpl never.
#[local] Arguments Z.sub : simpl never.
#[local] Arguments Z.of_nat : simpl never.
#[local] Arguments Z.gtb : simpl never.
#[local] Arguments Z.ltb : simpl never.
#[local] Arguments Z.eqb : simpl never.

(** ** Scoring, in the words of the specification *)

Definition is_ace (c : card) : bool := Value_eqb (value c) Ace.

(** The sum of the card values with every Ace worth 11. *)
Definition raw_total (hand : list card) : Z :=
  fold_right (fun c t => Francesco.card_value c + t) 0 hand.

Definition count_aces (hand : list card) : nat :=
  length (filter is_ace hand).

(** The total of a hand when each Ace is worth 1 or 11 as [low] says, card
    by card ([true]: this card, if an Ace, is worth 1). *)
Fixpoint valued_total (hand : list card) (low : list bool) : Z :=
  match hand with
  | [] => 0
  | c :: hand' =>
      (if is_ace c && hd false low then 1 else Francesco.card_value c)
      + valued_total hand' (tl low)
  end.

(** The choice that counts the first [k] Aces of the hand as 1. *)
Fixpoint lower_first (k : nat) (hand : list card) : list bool :=
  match hand with
  | [] => []
  | c :: hand' =>
      if is_ace c then
        match k with
        | O => false :: lower_first O hand'
        | S k' => true :: lower_first k' hand'
        end
      else false :: lower_first k hand'
  end.

(** ** The round, as a whole *)

(** [int(bet * 2.5)], the amount added on a blackjack. *)
Definition blackjack_win (stake : Z) : result Z :=
  x <- Float.int_mul stake Float.lit_2_5 ;; Float.to_int x.

(** The states a round passes through from [s0]. *)
Inductive reaches (s0 : state) : state -> Prop :=
  | reaches_start : reaches s0 s0
  | reaches_step (s s' : state) :
      reaches s0 s -> Francesco.step s = Ok s' -> reaches s0 s'.

(** How [main] enters the body of a round: a fresh double deck, shuffled,
    and a bet that passed [bet <= 0 or bet > player_money]. *)
Definition round_start (s0 : state) : Prop :=
  exists shuffled answers money stake,
    Francesco.shuffle_deck Francesco.create_deck shuffled /\
    0 < stake <= money /\
    s0 = start shuffled answers money stake.

(** Two cards that score 21. *)
Definition natural (hand : list card) : Prop :=
  length hand = 2%nat /\ Francesco.calculate_total hand false = 21.

(** What holds of the variables at each program point of a round that
    started in [s0]. *)
Definition round_inv (s0 s : state) : Prop :=
  let pt_scored := player_total s = Francesco.calculate_total (player_hand s) false in
  let dt_scored := dealer_total s = Francesco.calculate_total (dealer_hand s) false in
  let unchanged := player_money s = player_money s0 in
  bet s = bet s0 /\
  Permutation (deck s ++ player_hand s ++ dealer_hand s) (deck s0) /\
  match at_pc s with
  | DealPlayer => unchanged /\ player_hand s = [] /\ dealer_hand s = []
  | DealDealer => unchanged /\ length (player_hand s) = 1%nat /\ dealer_hand s = []
  | PlayerLoop =>
      unchanged /\ length (dealer_hand s) = 1%nat /\
      (length (player_hand s) = 1%nat \/
       (2 <= length (player_hand s))%nat /\
       Francesco.calculate_total (player_hand s) false < 21)
  | PlayerDone =>
      unchanged /\ length (dealer_hand s) = 1%nat /\ (1 <= length (player_hand s))%nat
  | DealerLoop =>
      unchanged /\ pt_scored /\ player_total s <= 21 /\ ~ natural (player_hand s) /\
      dt_scored /\ dealer_total s <= 21 /\ (1 <= length (dealer_hand s))%nat
  | Compare =>
      unchanged /\ pt_scored /\ player_total s <= 21 /\ ~ natural (player_hand s) /\
      dt_scored /\ 17 <= dealer_total s
  | Settled o =>
      pt_scored /\
      match o with
      | Busted =>
          21 < player_total s /\ length (dealer_hand s) = 1%nat /\
          player_money s = player_money s0 - bet s0
      | Blackjack =>
          natural (player_hand s) /\ length (dealer_hand s) = 1%nat /\
          blackjack_win (bet s0) = Ok (player_money s - player_money s0)
      | DealerBusts =>
          player_total s <= 21 /\ ~ natural (player_hand s) /\ dt_scored /\
          21 < dealer_total s /\
          player_money s = player_money s0 + bet s0
      | YouWin =>
          player_total s <= 21 /\ ~ natural (player_hand s) /\ dt_scored /\
          17 <= dealer_total s <= 21 /\ dealer_total s < player_total s /\
          player_money s = player_money s0 + bet s0
      | DealerWins =>
          player_total s <= 21 /\ ~ natural (player_hand s) /\ dt_scored /\
          17 <= dealer_total s <= 21 /\ player_total s < dealer_total s /\
          player_money s = player_money s0 - bet s0
      | Push =>
          player_total s <= 21 /\ ~ natural (player_hand s) /\ dt_scored /\
          17 <= dealer_total s <= 21 /\ player_total s = dealer_total s /\
          player_money s = player_money s0
      end
  end.

(** An upper bound on the steps a round still takes from [s]. *)
Definition steps_left (s : state) : nat :=
  match at_pc s with
  | DealPlayer | DealDealer | PlayerLoop =>
      (length (moves s) + length (deck s) + 4)%nat
  | PlayerDone => (length (deck s) + 3)%nat
  | DealerLoop => (length (deck s) + 2)%nat
  | Compare => 1%nat
  | Settled _ => 0%nat
  end.

(** [n] calls of [deal_card] in a row on one deck: the cards in the order
    dealt, and the deck that is left. *)
Fixpoint deal_cards (n : nat) (deck : list card) : result (list card * list card) :=
  match n with
  | O => Ok ([], deck)
  | S n' =>
      '(c, deck) <- Francesco.deal_card deck ;;
      '(cs, deck) <- deal_cards n' deck ;;
      Ok (c :: cs, deck)
  end.

(** ** The rest of the two files: the session of [main] and [display_hand] *)

From Stdlib Require String Ascii.
Import String.StringSyntax Ascii.AsciiSyntax.
Delimit Scope string_scope with string.

(** The strings that the enumerations stand for, as [create_deck] lists
    them. *)
Definition value_str (v : Value) : String.string :=
  match v with
  | Two => "2" | Three => "3" | Four => "4" | Five => "5" | Six => "6"
  | Seven => "7" | Eight => "8" | Nine => "9" | Ten => "10"
  | Jack => "J" | Queen => "Q" | King => "K" | Ace => "A"
  end%string.

Definition suit_str (s : Suit) : String.string :=
  match s with
  | Hearts => "Hearts" | Diamonds => "Diamonds" | Clubs => "Clubs" | Spades => "Spades"
  end%string.

(** [f"{card['value']} of {card['suit']}"] *)
Definition card_str (card : card) : String.string :=
  String.append (value_str (value card))
                (String.append " of "%string (suit_str (suit card))).

(** [", ".join(... for card in hand)] *)
Definition display_hand (hand : list card) : String.string :=
  String.concat ", "%string (map card_str hand).

(** The name of the Python class of an exception. *)
Definition exn_name (e : exn) : String.string :=
  match e with
  | IndexError => "IndexError"
  | EOFError => "EOFError"
  | OverflowError => "OverflowError"
  | ValueError => "ValueError"
  end%string.

(** The cards worth 10 that are not read as 11. *)
Definition ten_valued (v : Value) : bool :=
  match v with
  | Ten | Jack | Queen | King => true
  | _ => false
  end.

Definition Value_eq_dec (a b : Value) : {a = b} + {a <> b}.
Proof. decide equality. Defined.

Definition Suit_eq_dec (a b : Suit) : {a = b} + {a <> b}.
Proof. decide equality. Defined.

Definition card_eq_dec (a b : card) : {a = b} + {a <> b}.
Proof. decide equality; [apply Suit_eq_dec | apply Value_eq_dec]. Defined.

(** A line typed at a prompt, by what the program makes of it: the integer
    that [int(text.strip())] returns ([None] when it raises [ValueError]),
    whether [text.strip().lower()] is ["cashout"], and which answer to "hit
    or stay?" it is. *)
Record line := {
  as_int : option Z;
  is_cashout : bool;
  as_move : move
}.

(** The first loop of [main] (lines 102-111 of src/francescoversion.py):
    ask until the line is a positive integer.  Returns the buy-in and the
    lines not yet read. *)
Fixpoint buy_in (lines : list line) : result (Z * list line) :=
  match lines with
  | [] => Raise EOFError
  | l :: rest =>
      match as_int l with
      | Some player_money =>
          if player_money >? 0 then Ok (player_money, rest) else buy_in rest
      | None => buy_in rest
      end
  end.

(** [print] of an integer goes through [str]: CPython (3.11, and the older
    series as patched since) refuses to convert an integer of more than 4300
    decimal digits and raises [ValueError]. *)
Definition int_str_limit : Z := 10 ^ 4300.

Definition print_int (n : Z) : result unit :=
  if Z.abs n <? int_str_limit then Ok tt else Raise ValueError.

(** One iteration of [while player_money > 0] from [deck = create_deck()]
    to its end (lines 128-200): the round, then the "Round over" line with
    the balance, which the [continue] after a bust and after a blackjack
    skips. *)
Definition play_iteration (shuffled : list card) (answers : list move)
                          (money stake : Z) : result state :=
  s <- Francesco.play_round shuffled answers money stake ;;
  match at_pc s with
  | Settled Busted | Settled Blackjack => Ok s
  | _ => bind (print_int (player_money s)) (fun _ => Ok s)
  end.

(** The loop [while player_money > 0] (lines 113-200): [money] is
    [player_money], [shuffle n] is the order in which the [n]-th call of
    [shuffle_deck] leaves the deck, and [played] counts the rounds so far.
    Every iteration starts by printing the balance.  A round reads its
    answers from the lines that follow the bet and leaves the rest to the
    next prompt.  Returns the balance at the end of the loop; [None] only
    when [fuel] iterations were not enough. *)
Fixpoint betting_loop (fuel : nat) (shuffle : nat -> list card) (played : nat)
                      (money : Z) (lines : list line) : option (result Z) :=
  match fuel with
  | O => None
  | S fuel' =>
      if money >? 0 then
        match print_int money with
        | Raise e => Some (Raise e)
        | Ok _ =>
            match lines with
            | [] => Some (Raise EOFError)
            | l :: rest =>
                if is_cashout l then Some (Ok money)
                else
                  match as_int l with
                  | None => betting_loop fuel' shuffle played money rest
                  | Some bet =>
                      if (bet <=? 0) || (bet >? money) then
                        betting_loop fuel' shuffle played money rest
                      else
                        match play_iteration (shuffle played) (map as_move rest)
                                             money bet with
                        | Raise e => Some (Raise e)
                        | Ok s =>
                            let read := (length rest - length (moves s))%nat in
                            betting_loop fuel' shuffle (S played) (player_money s)
                                         (skipn read rest)
                        end
                  end
            end
        end
      else Some (Ok money)
  end.

(** [main]: the buy-in, the betting loop, and the line with the amount
    cashed out (line 202); every iteration of the loop reads a line, so one
    more iteration than there are lines is enough. *)
Definition main (shuffle : nat -> list card) (lines : list line) : option (result Z) :=
  match buy_in lines with
  | Raise e => Some (Raise e)
  | Ok (player_money, rest) =>
      match betting_loop (S (length rest)) shuffle 0 player_money rest with
      | Some (Ok cash) => Some (bind (print_int cash) (fun _ => Ok cash))
      | r => r
      end
  end.

(** A float that is not a NaN and has the sign [sx]. *)
Definition signed_as (sx : bool) (f : spec_float) : Prop :=
  match f with
  | S754_zero s | S754_infinity s | S754_finite s _ _ => s = sx
  | S754_nan => False
  end.

(** The answers that are [hit] or [stay]. *)
Definition valid_moves (answers : list move) : list move :=
  filter (fun m => match m with other => false | _ => true end) answers.

(** Two states that differ at most in the answers still to be read, the
    second one holding only the valid ones of the first. *)
Definition same_but_moves (s t : state) : Prop :=
  deck t = deck s /\ player_hand t = player_hand s /\ dealer_hand t = dealer_hand s /\
  player_total t = player_total s /\ dealer_total t = dealer_total s /\
  player_money t = player_money s /\ bet t = bet s /\ at_pc t = at_pc s /\
  moves t = valid_moves (moves s).

(** The end of a run: a settled round or an exception. *)
Definition final (r : result state) : Prop :=
  match r with
  | Ok s => exists o, at_pc s = Settled o
  | Raise _ => True
  end.

(** The hands of a round stay within these sizes. *)
Definition hand_bounds (s : state) : Prop :=
  (length (player_hand s) <= 21)%nat /\ (length (dealer_hand s) <= 17)%nat.

(** Before the player's turn is over a [stay] is still to be read. *)
Definition stay_ahead (s : state) : Prop :=
  match at_pc s with
  | DealPlayer | DealDealer | PlayerLoop => In stay (moves s)
  | _ => True
  end.

(** ** The hand scorer *)

Section Scorer.

Import Francesco.

Lemma card_value_ace c : is_ace c = true -> card_value c = 11.
Proof.
  unfold is_ace, card_value. destruct (value c); simpl; congruence.
Qed.

Lemma card_value_bounds c :
  if is_ace c then card_value c = 11 else 2 <= card_value c <= 10.
Proof.
  unfold is_ace, card_value. destruct (value c); simpl; lia.
Qed.

Lemma count_hand_from hand : forall total aces,
  fold_left
    (fun '(total, aces) card =>
       let value := value card in
       let total := total + card_value card in
       if Value_eqb value Ace then (total, S aces) else (total, aces))
    hand (total, aces)
  = (total + raw_total hand, (aces + count_aces hand)%nat).
Proof.
  induction hand as [|c hand IH]; intros total aces; unfold count_aces in *; simpl.
  - f_equal; lia.
  - fold (is_ace c).
    destruct (is_ace c); rewrite IH; simpl; f_equal; lia.
Qed.

Lemma count_hand_spec hand :
  count_hand hand = (raw_total hand, count_aces hand).
Proof.
  unfold count_hand. rewrite count_hand_from. reflexivity.
Qed.

Lemma calculate_total_soft hand :
  calculate_total hand false = adjust_aces (raw_total hand) (count_aces hand).
Proof.
  unfold calculate_total. rewrite count_hand_spec. reflexivity.
Qed.

Lemma calculate_total_hard hand :
  calculate_total hand true = raw_total hand - Z.of_nat (count_aces hand) * 10.
Proof.
  unfold calculate_total. rewrite count_hand_spec. reflexivity.
Qed.

(** What the [while] loop of the soft mode leaves: [k] subtractions, each
    made at a total above 21, stopped by a total within 21 or by the last
    Ace. *)
Lemma adjust_aces_spec : forall aces total,
  exists k : nat,
    (k <= aces)%nat /\
    adjust_aces total aces = total - 10 * Z.of_nat k /\
    ((k < aces)%nat -> adjust_aces total aces <= 21) /\
    (forall j : nat, (j < k)%nat -> 21 < total - 10 * Z.of_nat j).
Proof.
  induction aces as [|aces IH]; intros total; simpl.
  - exists O. repeat split; intros; lia.
  - destruct (Z.gtb_spec total 21) as [Hgt|Hle].
    + destruct (IH (total - 10)) as (k & Hk & Heq & Hstop & Hall).
      exists (S k). repeat split.
      * lia.
      * lia.
      * intros Hlt. apply Hstop. lia.
      * intros [|j] Hj; [lia|].
        specialize (Hall j ltac:(lia)). lia.
    + exists O. repeat split; intros; lia.
Qed.

(** Any choice of Ace values lowers the raw total by 10 for each Ace
    counted as 1. *)
Lemma valued_total_spec : forall hand low,
  exists j : nat,
    (j <= count_aces hand)%nat /\
    valued_total hand low = raw_total hand - 10 * Z.of_nat j.
Proof.
  induction hand as [|c hand IH]; intros low; simpl.
  - exists O. split; [lia | reflexivity].
  - destruct (IH (tl low)) as (j & Hj & Heq).
    unfold count_aces in *. simpl.
    destruct (is_ace c) eqn:Hc; simpl.
    + destruct (hd false low).
      * exists (S j). rewrite Heq, (card_value_ace c Hc). split; lia.
      * exists j. rewrite Heq. split; lia.
    + exists j. rewrite Heq. split; lia.
Qed.

Lemma lower_first_length : forall hand k, length (lower_first k hand) = length hand.
Proof.
  induction hand as [|c hand IH]; intros k; simpl; [reflexivity|].
  destruct (is_ace c); [destruct k|]; simpl; rewrite IH; reflexivity.
Qed.

Lemma lower_first_total : forall hand k,
  (k <= count_aces hand)%nat ->
  valued_total hand (lower_first k hand) = raw_total hand - 10 * Z.of_nat k.
Proof.
  induction hand as [|c hand IH]; intros k Hk; unfold count_aces in *; simpl in *.
  - assert (k = O) by lia. subst. reflexivity.
  - destruct (is_ace c) eqn:Hc; simpl in *.
    + destruct k as [|k]; simpl.
      * rewrite IH by lia. lia.
      * rewrite IH by lia. rewrite (card_value_ace c Hc). lia.
    + rewrite IH by lia. lia.
Qed.

End Scorer.

(** C1. Soft mode ([calculate_total hand false]) starts from the sum with
    every Ace at 11 and takes 10 off once per Ace, only while the total is
    above 21 and an Ace is left: it makes [k] subtractions, each at a total
    above 21, and stops within 21 or at the last Ace.  The result is a total
    that some choice of 1 or 11 for each Ace reaches; it is the highest such
    total within 21 when there is one, and the lowest total otherwise.  An
    empty hand scores 0 and two Aces score 12. *)
Theorem soft_total_optimal : forall hand : list card,
  let soft := Francesco.calculate_total hand false in
  (exists k : nat,
      (k <= count_aces hand)%nat /\
      soft = raw_total hand - 10 * Z.of_nat k /\
      ((k < count_aces hand)%nat -> soft <= 21) /\
      (forall j : nat, (j < k)%nat -> 21 < raw_total hand - 10 * Z.of_nat j)) /\
  (exists low : list bool,
      length low = length hand /\ valued_total hand low = soft) /\
  (forall low : list bool,
      (valued_total hand low <= 21 -> valued_total hand low <= soft <= 21) /\
      (21 < soft -> soft <= valued_total hand low)) /\
  Francesco.calculate_total [] false = 0 /\
  (forall s1 s2 : Suit,
      Francesco.calculate_total
        [{| value := Ace; suit := s1 |}; {| value := Ace; suit := s2 |}] false = 12).
Proof.
  intros hand soft.
  assert (Hsoft : soft = Francesco.adjust_aces (raw_total hand) (count_aces hand))
    by apply calculate_total_soft.
  destruct (adjust_aces_spec (count_aces hand) (raw_total hand))
    as (k & Hk & Heq & Hstop & Hall).
  rewrite <- Hsoft in Heq, Hstop.
  split; [exists k; auto|].
  split.
  { exists (lower_first k hand). split.
    - apply lower_first_length.
    - rewrite lower_first_total by assumption. symmetry. exact Heq. }
  split.
  { intros low.
    destruct (valued_total_spec hand low) as (j & Hj & Hv).
    rewrite Hv. split.
    - intros Hle.
      assert (Hkj : (k <= j)%nat).
      { destruct (Nat.le_gt_cases k j) as [|Hlt]; [assumption|].
        specialize (Hall j Hlt). lia. }
      split; [lia|].
      destruct (Nat.eq_dec k (count_aces hand)) as [Hlast|Hnot].
      + lia.
      + apply Hstop. lia.
    - intros Hover.
      assert (k = count_aces hand).
      { destruct (Nat.eq_dec k (count_aces hand)) as [|Hnot]; [assumption|].
        assert (soft <= 21) by (apply Hstop; lia). lia. }
      lia. }
  split; [reflexivity|].
  intros s1 s2. reflexivity.
Qed.

(** C4. Hard mode ([calculate_total hand true]) is the sum with every Ace at
    11 less 10 for every Ace of the hand, whatever the total: also for a
    hand such as Ace and Five, 16 at most in any reading, which it scores 6.
    Four Aces score 4 in hard mode and 14 in soft mode. *)
Theorem hard_total_unconditional : forall hand : list card,
  Francesco.calculate_total hand true
    = raw_total hand - 10 * Z.of_nat (count_aces hand) /\
  (forall s1 s2 : Suit,
      let h := [{| value := Ace; suit := s1 |}; {| value := Five; suit := s2 |}] in
      raw_total h = 16 /\ Francesco.calculate_total h true = 6) /\
  (forall s1 s2 s3 s4 : Suit,
      let h := [{| value := Ace; suit := s1 |}; {| value := Ace; suit := s2 |};
                {| value := Ace; suit := s3 |}; {| value := Ace; suit := s4 |}] in
      Francesco.calculate_total h true = 4 /\
      Francesco.calculate_total h false = 14).
Proof.
  intros hand. split.
  - rewrite calculate_total_hard. lia.
  - split; intros; split; reflexivity.
Qed.

(** ** The round *)

Lemma pop_snoc {T : Type} (l : list T) (x : T) : pop (l ++ [x]) = Ok (x, l).
Proof.
  unfold pop. rewrite rev_app_distr. simpl. rewrite removelast_last. reflexivity.
Qed.

Lemma pop_cases {T : Type} (l : list T) :
  (l = [] /\ pop l = Raise IndexError) \/
  (exists x l', l = l' ++ [x] /\ pop l = Ok (x, l')).
Proof.
  destruct l as [|y l] using rev_ind.
  - left. split; reflexivity.
  - right. exists y, l. split; [reflexivity | apply pop_snoc].
Qed.

Lemma pop_ok {T : Type} (l l' : list T) (x : T) :
  pop l = Ok (x, l') <-> l = l' ++ [x].
Proof.
  split.
  - intros H. destruct (pop_cases l) as [[_ E]|(y & m & -> & E)]; rewrite E in H.
    + discriminate.
    + injection H as -> ->. reflexivity.
  - intros ->. apply pop_snoc.
Qed.

Lemma pop_raise {T : Type} (l : list T) (e : exn) :
  pop l = Raise e <-> l = [] /\ e = IndexError.
Proof.
  split.
  - intros H. destruct (pop_cases l) as [[-> E]|(y & m & -> & E)]; rewrite E in H.
    + injection H as <-. split; reflexivity.
    + discriminate.
  - intros [-> ->]. reflexivity.
Qed.

Lemma deal_card_ok dk c d : Francesco.deal_card dk = Ok (c, d) <-> dk = d ++ [c].
Proof. apply pop_ok. Qed.

(** The two ways a [deal_card] inside [step] can go. *)
Ltac deal_in H :=
  match type of H with
  | context [Francesco.deal_card ?dk] =>
      let c := fresh "c" in
      let d := fresh "d" in
      let e := fresh "e" in
      let Hd := fresh "Hdeal" in
      destruct (Francesco.deal_card dk) as [[c d]|e] eqn:Hd; cbn [bind] in H;
      [apply deal_card_ok in Hd; subst dk | discriminate H]
  end.

(** The two ways a comparison inside [step] can go. *)
Ltac branch_in H :=
  match type of H with
  | context [?a >? ?b] => destruct (Z.gtb_spec a b)
  | context [?a <? ?b] => destruct (Z.ltb_spec a b)
  | context [?a =? ?b] => destruct (Z.eqb_spec a b)
  end; cbn [andb] in H.

Section Round.

Import Francesco.

(** Every card is worth at least 1 however its Ace is read, so a hand
    scores at least its number of cards. *)
Lemma raw_total_lower hand :
  Z.of_nat (length hand) + 10 * Z.of_nat (count_aces hand) <= raw_total hand.
Proof.
  induction hand as [|c hand IH]; unfold count_aces in *; simpl; [lia|].
  pose proof (card_value_bounds c) as Hc.
  destruct (is_ace c); simpl; lia.
Qed.

Lemma soft_total_lower hand :
  Z.of_nat (length hand) <= calculate_total hand false.
Proof.
  rewrite calculate_total_soft.
  destruct (adjust_aces_spec (count_aces hand) (raw_total hand)) as (k & Hk & -> & _).
  pose proof (raw_total_lower hand). lia.
Qed.

(** A single card scores at most 11. *)
Lemma soft_total_one hand : length hand = 1%nat -> calculate_total hand false <= 11.
Proof.
  destruct hand as [|[v s] [|? ?]]; try discriminate. intros _.
  unfold calculate_total, count_hand, card_value. destruct v; simpl; lia.
Qed.

Lemma perm_deal_player (d ph dh : list card) (c : card) :
  Permutation (d ++ (ph ++ [c]) ++ dh) ((d ++ [c]) ++ ph ++ dh).
Proof.
  rewrite <- !app_assoc. apply Permutation_app_head.
  cbn. symmetry. apply Permutation_middle.
Qed.

Lemma perm_deal_dealer (d ph dh : list card) (c : card) :
  Permutation (d ++ ph ++ dh ++ [c]) ((d ++ [c]) ++ ph ++ dh).
Proof.
  rewrite <- !app_assoc. apply Permutation_app_head.
  rewrite (app_assoc ph dh [c]). apply Permutation_app_comm.
Qed.

Lemma step_inv s0 s s' : round_inv s0 s -> step s = Ok s' -> round_inv s0 s'.
Proof.
  intros (Hbet & Hperm & Hpc) Hstep.
  destruct s as [dk ph dh pt dt pm b mv p].
  unfold step in Hstep. cbn in Hbet, Hperm, Hpc, Hstep.
  destruct p; cbn in Hpc, Hstep.
  - (* the player's first card *)
    deal_in Hstep. injection Hstep as <-.
    destruct Hpc as (Hm & -> & ->).
    repeat split; cbn; auto.
    rewrite <- Hperm. apply (perm_deal_player d [] [] c).
  - (* the dealer's first card *)
    deal_in Hstep. injection Hstep as <-.
    destruct Hpc as (Hm & Hlen & ->).
    repeat split; cbn; auto.
    rewrite <- Hperm. rewrite <- (perm_deal_dealer d ph [] c). reflexivity.
  - (* the player's loop *)
    destruct Hpc as (Hm & Hdh & Hph).
    destruct mv as [|m rest]; [discriminate|].
    destruct m; cbn in Hstep.
    + deal_in Hstep.
      assert (Hp : Permutation (d ++ (ph ++ [c]) ++ dh) (deck s0))
        by (rewrite <- Hperm; apply perm_deal_player).
      assert (Hl : (2 <= length (ph ++ [c]))%nat)
        by (rewrite length_app; cbn; destruct Hph; lia).
      repeat branch_in Hstep; injection Hstep as <-;
        repeat split; cbn; auto; try lia.
    + injection Hstep as <-. repeat split; cbn; auto. destruct Hph; lia.
    + injection Hstep as <-. repeat split; cbn; auto.
  - (* the player is done *)
    destruct Hpc as (Hm & Hdh & Hph).
    branch_in Hstep.
    + injection Hstep as <-. repeat split; cbn; auto; lia.
    + destruct (Z.eqb_spec (Z.of_nat (length ph)) 2) as [Hl|Hl];
        destruct (Z.eqb_spec (calculate_total ph false) 21) as [Ht|Ht];
        cbn [andb] in Hstep.
      * fold (blackjack_win b) in Hstep.
        destruct (Float.int_mul b Float.lit_2_5) as [x|e] eqn:Hx; [|discriminate].
        cbn [bind] in Hstep.
        destruct (Float.to_int x) as [w|e] eqn:Hw; [|discriminate].
        cbn [bind] in Hstep. injection Hstep as <-.
        repeat split; cbn; auto; try lia.
        unfold blackjack_win. rewrite <- Hbet, Hx. cbn [bind]. rewrite Hw.
        f_equal. lia.
      * injection Hstep as <-. pose proof (soft_total_one dh Hdh).
        repeat split; cbn; auto; try lia; try (intros [? ?]; lia).
      * injection Hstep as <-. pose proof (soft_total_one dh Hdh).
        repeat split; cbn; auto; try lia; try (intros [? ?]; lia).
      * injection Hstep as <-. pose proof (soft_total_one dh Hdh).
        repeat split; cbn; auto; try lia; try (intros [? ?]; lia).
  - (* the dealer's loop *)
    destruct Hpc as (Hm & Hpt & Hle & Hnat & Hdt & Hdle & Hlen).
    branch_in Hstep.
    + deal_in Hstep.
      assert (Hp : Permutation (d ++ ph ++ dh ++ [c]) (deck s0))
        by (rewrite <- Hperm; apply perm_deal_dealer).
      branch_in Hstep; injection Hstep as <-;
        repeat split; cbn; auto; try lia.
      rewrite length_app. lia.
    + injection Hstep as <-. repeat split; cbn; auto; lia.
  - (* the comparison *)
    destruct Hpc as (Hm & Hpt & Hle & Hnat & Hdt & Hdle).
    repeat branch_in Hstep; injection Hstep as <-;
      repeat split; cbn; auto; lia.
  - (* settled *)
    injection Hstep as <-. split; [exact Hbet|]. split; [exact Hperm|]. exact Hpc.
Qed.

Lemma create_deck_length : length create_deck = 104%nat.
Proof. reflexivity. Qed.

Lemma start_inv s0 : round_start s0 -> round_inv s0 s0.
Proof.
  intros (shuffled & answers & money & stake & _ & _ & ->).
  repeat split; cbn; auto. rewrite app_nil_r. reflexivity.
Qed.

Lemma reaches_inv s0 s : round_start s0 -> reaches s0 s -> round_inv s0 s.
Proof.
  intros H0 Hr. induction Hr as [|s s' _ IH Hstep].
  - apply start_inv, H0.
  - eapply step_inv; eassumption.
Qed.

Lemma reaches_trans s0 s1 s2 : reaches s0 s1 -> reaches s1 s2 -> reaches s0 s2.
Proof.
  intros H1 H2. induction H2 as [|s s' _ IH Hstep]; [assumption|].
  eapply reaches_step; eassumption.
Qed.

Lemma run_reaches : forall n s s', run n s = Ok s' -> reaches s s'.
Proof.
  induction n as [|n IH]; intros s s' Hrun; cbn in Hrun.
  - injection Hrun as <-. constructor.
  - destruct (at_pc s) eqn:Hpc;
      try (destruct (step s) as [s1|e] eqn:Hstep; cbn [bind] in Hrun; [|discriminate];
           eapply reaches_trans; [eapply reaches_step; [constructor | exact Hstep] | apply IH, Hrun]).
    injection Hrun as <-. constructor.
Qed.

Lemma step_settled s o : at_pc s = Settled o -> step s = Ok s.
Proof. intros H. unfold step. rewrite H. reflexivity. Qed.

Lemma run_settled : forall n s o, at_pc s = Settled o -> run n s = Ok s.
Proof.
  intros [|n] s o H; cbn; [reflexivity|]. rewrite H. reflexivity.
Qed.

(** [run] is [step] taken [n] times. *)
Lemma run_S n s : run (S n) s = s' <- step s ;; run n s'.
Proof.
  cbn [run]. destruct (at_pc s) eqn:Hpc; try reflexivity.
  rewrite (step_settled s o Hpc). cbn [bind]. symmetry. eapply run_settled, Hpc.
Qed.

(** Each step before the settlement uses up an answer, a card or one of
    the last program points. *)
Lemma step_decreases s s' :
  step s = Ok s' -> (forall o, at_pc s <> Settled o) -> (steps_left s' < steps_left s)%nat.
Proof.
  intros Hstep Hns.
  destruct s as [dk ph dh pt dt pm b mv p].
  unfold step in Hstep. cbn in Hstep.
  destruct p; cbn in Hstep.
  - deal_in Hstep. injection Hstep as <-. unfold steps_left; cbn.
    rewrite length_app; cbn; lia.
  - deal_in Hstep. injection Hstep as <-. unfold steps_left; cbn.
    rewrite length_app; cbn; lia.
  - destruct mv as [|m rest]; [discriminate|].
    destruct m; cbn in Hstep.
    + deal_in Hstep.
      repeat branch_in Hstep; injection Hstep as <-; unfold steps_left; cbn;
        rewrite length_app; cbn; lia.
    + injection Hstep as <-. unfold steps_left; cbn. lia.
    + injection Hstep as <-. unfold steps_left; cbn. lia.
  - branch_in Hstep.
    + injection Hstep as <-. unfold steps_left; cbn. lia.
    + destruct ((Z.of_nat (length ph) =? 2) && (calculate_total ph false =? 21)).
      * destruct (Float.int_mul b Float.lit_2_5) as [x|e]; [|discriminate].
        cbn [bind] in Hstep.
        destruct (Float.to_int x) as [w|e]; [|discriminate].
        injection Hstep as <-. unfold steps_left; cbn. lia.
      * injection Hstep as <-. unfold steps_left; cbn. lia.
  - branch_in Hstep.
    + deal_in Hstep.
      branch_in Hstep; injection Hstep as <-; unfold steps_left; cbn;
        rewrite length_app; cbn; lia.
    + injection Hstep as <-. unfold steps_left; cbn. lia.
  - repeat branch_in Hstep; injection Hstep as <-; unfold steps_left; cbn; lia.
  - exfalso. eapply Hns. reflexivity.
Qed.

(** With as many steps as [steps_left] allows, a round that raises nothing
    ends settled. *)
Lemma run_settles : forall n s s',
  (steps_left s <= n)%nat -> run n s = Ok s' -> exists o, at_pc s' = Settled o.
Proof.
  induction n as [|n IH]; intros s s' Hn Hrun; cbn in Hrun.
  - injection Hrun as <-.
    destruct s as [dk ph dh pt dt pm b mv p]; unfold steps_left in Hn; cbn in *.
    destruct p; try lia. eexists; reflexivity.
  - destruct (at_pc s) eqn:Hpc;
      try (destruct (step s) as [s1|e] eqn:Hstep; cbn [bind] in Hrun; [|discriminate];
           apply (IH s1 s'); [|exact Hrun];
           assert (steps_left s1 < steps_left s)%nat
             by (apply step_decreases; [exact Hstep | intros o; rewrite Hpc; discriminate]);
           lia).
    injection Hrun as <-. eexists; exact Hpc.
Qed.

Lemma play_round_settles shuffled answers money stake s :
  play_round shuffled answers money stake = Ok s ->
  reaches (start shuffled answers money stake) s /\ exists o, at_pc s = Settled o.
Proof.
  unfold play_round. intros Hrun. split.
  - eapply run_reaches, Hrun.
  - eapply run_settles; [|exact Hrun]. unfold steps_left, round_fuel. cbn. lia.
Qed.

End Round.

Lemma round_start_intro shuffled answers money stake :
  Francesco.shuffle_deck Francesco.create_deck shuffled ->
  0 < stake <= money ->
  round_start (start shuffled answers money stake).
Proof.
  intros Hs Hb. exists shuffled, answers, money, stake. auto.
Qed.

Lemma play_round_inv shuffled answers money stake s :
  Francesco.shuffle_deck Francesco.create_deck shuffled ->
  0 < stake <= money ->
  Francesco.play_round shuffled answers money stake = Ok s ->
  round_inv (start shuffled answers money stake) s /\ exists o, at_pc s = Settled o.
Proof.
  intros Hs Hb Hrun.
  destruct (play_round_settles _ _ _ _ _ Hrun) as [Hreach Hset].
  split; [|exact Hset].
  apply reaches_inv; [apply round_start_intro; assumption | exact Hreach].
Qed.

(** C2. A round that ends with the player neither above 21 nor on two
    cards scoring 21 is settled on the two final scores by these rules, in
    this order: the dealer above 21, the player wins and the balance grows
    by the bet; else the higher score wins, the balance growing or
    shrinking by the bet; equal scores are a push and the balance stays. *)
Theorem settlement_rules : forall shuffled answers money stake s,
  Francesco.shuffle_deck Francesco.create_deck shuffled ->
  0 < stake <= money ->
  Francesco.play_round shuffled answers money stake = Ok s ->
  let pt := Francesco.calculate_total (player_hand s) false in
  let dt := Francesco.calculate_total (dealer_hand s) false in
  pt <= 21 ->
  ~ natural (player_hand s) ->
  player_total s = pt /\ dealer_total s = dt /\
  (21 < dt ->
     at_pc s = Settled DealerBusts /\ player_money s = money + stake) /\
  (dt <= 21 -> dt < pt ->
     at_pc s = Settled YouWin /\ player_money s = money + stake) /\
  (dt <= 21 -> pt < dt ->
     at_pc s = Settled DealerWins /\ player_money s = money - stake) /\
  (dt <= 21 -> pt = dt ->
     at_pc s = Settled Push /\ player_money s = money).
Proof.
  intros shuffled answers money stake s Hs Hb Hrun pt dt Hle Hnat.
  destruct (play_round_inv _ _ _ _ _ Hs Hb Hrun) as [(_ & _ & Hpc) [o Ho]].
  rewrite Ho in Hpc. cbn in Hpc. destruct Hpc as [Hpt Hpc].
  subst pt dt. rewrite Ho.
  destruct o.
  - destruct Hpc as (Hbust & _). lia.
  - destruct Hpc as (Hn & _). contradiction.
  - destruct Hpc as (_ & _ & Hdt & Hd & Hm). rewrite <- Hdt, <- Hpt.
    repeat split; auto; intros; lia.
  - destruct Hpc as (_ & _ & Hdt & Hd & Hcmp & Hm). rewrite <- Hdt, <- Hpt.
    repeat split; auto; intros; lia.
  - destruct Hpc as (_ & _ & Hdt & Hd & Hcmp & Hm). rewrite <- Hdt, <- Hpt.
    repeat split; auto; intros; lia.
  - destruct Hpc as (_ & _ & Hdt & Hd & Hcmp & Hm). rewrite <- Hdt, <- Hpt.
    repeat split; auto; intros; lia.
Qed.

(** On the deck as [create_deck] builds it, the player who stays on the
    Ace of Spades loses to the dealer's King and Queen. *)
Lemma settlement_rules_witness :
  match Francesco.play_round Francesco.create_deck [stay] 100 10 with
  | Ok s => at_pc s = Settled DealerWins /\ player_money s = 100 - 10
  | Raise _ => False
  end.
Proof.
  destruct (Francesco.play_round Francesco.create_deck [stay] 100 10)
    as [s|e] eqn:Hrun; [|vm_compute in Hrun; discriminate Hrun].
  destruct (settlement_rules Francesco.create_deck [stay] 100 10 s)
    as (_ & _ & _ & _ & Hlose & _).
  - apply Permutation_refl.
  - lia.
  - exact Hrun.
  - vm_compute in Hrun. injection Hrun as <-. vm_compute. discriminate.
  - vm_compute in Hrun. injection Hrun as <-. intros [_ H]. vm_compute in H. discriminate.
  - apply Hlose; vm_compute in Hrun; injection Hrun as <-; vm_compute;
      [discriminate | reflexivity].
Defined.

(** C6. At the head of the player's loop the total is within 21; when a
    step of the player's turn leaves the hand above 21, the loop is left at
    once and the next step settles the round as a bust: the balance is the
    one the round started with less the bet, no card leaves the deck, the
    dealer's hand stays the one card it was dealt, whatever that card is,
    and nothing happens afterwards. *)
Theorem bust_settles_at_once : forall s0 s s1,
  round_start s0 ->
  reaches s0 s ->
  at_pc s = PlayerLoop ->
  Francesco.step s = Ok s1 ->
  21 < Francesco.calculate_total (player_hand s1) false ->
  Francesco.calculate_total (player_hand s) false <= 21 /\
  at_pc s1 = PlayerDone /\
  exists s2,
    Francesco.step s1 = Ok s2 /\
    at_pc s2 = Settled Busted /\
    player_money s2 = player_money s0 - bet s0 /\
    deck s2 = deck s1 /\
    player_hand s2 = player_hand s1 /\
    dealer_hand s2 = dealer_hand s /\
    length (dealer_hand s2) = 1%nat /\
    (forall n, Francesco.run n s2 = Ok s2).
Proof.
  intros s0 s s1 H0 Hreach Hpc Hstep Hover.
  pose proof (reaches_inv s0 s H0 Hreach) as (Hbet & _ & Hinv).
  rewrite Hpc in Hinv. destruct Hinv as (Hm & Hdh & Hph).
  split.
  { destruct Hph as [Hone|[_ Hlt]]; [|lia].
    pose proof (soft_total_one _ Hone). lia. }
  assert (Hs1 : at_pc s1 = PlayerDone /\ dealer_hand s1 = dealer_hand s /\
                player_money s1 = player_money s /\ bet s1 = bet s).
  { destruct s as [dk ph dh pt dt pm b mv p]. cbn in Hpc. subst p.
    unfold Francesco.step in Hstep. cbn in Hstep, Hph, Hover.
    destruct mv as [|m rest]; [discriminate|].
    destruct m; cbn in Hstep.
    - deal_in Hstep.
      repeat branch_in Hstep; injection Hstep as <-; cbn in *; auto; lia.
    - injection Hstep as <-. cbn in *. auto.
    - injection Hstep as <-. cbn in *.
      destruct Hph as [Hone|[_ Hlt]]; [|lia].
      pose proof (soft_total_one _ Hone). lia. }
  destruct Hs1 as (Hpc1 & Hdh1 & Hm1 & Hb1).
  split; [exact Hpc1|].
  destruct s1 as [dk ph dh pt dt pm b mv p]. cbn in *. subst p.
  eexists. unfold Francesco.step. cbn.
  destruct (Z.gtb_spec (Francesco.calculate_total ph false) 21); [|lia].
  split; [reflexivity|]. cbn.
  repeat split; auto; try lia; try congruence.
  intros n. eapply run_settled. reflexivity.
Qed.

(** On the deck of [create_deck] reversed the cards come out as Two, Three,
    Four, ... of Hearts: the player who hits four times holds Two, Four,
    Five, Six and Seven, 24, against the dealer's Three. *)
Lemma bust_settles_at_once_witness :
  let s0 := start (rev Francesco.create_deck) [hit; hit; hit; hit] 100 10 in
  match Francesco.run 5 s0, Francesco.run 7 s0 with
  | Ok s, Ok s2 => at_pc s2 = Settled Busted /\ player_money s2 = 100 - 10
  | _, _ => False
  end.
Proof.
  intros s0.
  destruct (Francesco.run 5 s0) as [s|e] eqn:Hs;
    [|vm_compute in Hs; discriminate Hs].
  destruct (Francesco.run 7 s0) as [s2|e] eqn:Hs2;
    [|vm_compute in Hs2; discriminate Hs2].
  destruct (Francesco.step s) as [s1|e] eqn:Hstep;
    [|vm_compute in Hs; injection Hs as <-; vm_compute in Hstep; discriminate Hstep].
  destruct (bust_settles_at_once s0 s s1)
    as (_ & _ & s2' & Hstep2 & Hpc2 & Hmoney & _).
  - apply round_start_intro; [apply Permutation_rev | lia].
  - eapply run_reaches, Hs.
  - vm_compute in Hs. injection Hs as <-. reflexivity.
  - exact Hstep.
  - vm_compute in Hs. injection Hs as <-. vm_compute in Hstep. injection Hstep as <-.
    vm_compute. reflexivity.
  - assert (s2 = s2').
    { vm_compute in Hs. injection Hs as <-. vm_compute in Hstep. injection Hstep as <-.
      vm_compute in Hstep2. vm_compute in Hs2. congruence. }
    subst s2'. split; [exact Hpc2|]. rewrite Hmoney. reflexivity.
Defined.

(** A step leaves the cards where they are or moves the last card of the
    deck to the end of one hand. *)
Lemma step_moves_one_card s0 s s' :
  round_inv s0 s -> Francesco.step s = Ok s' ->
  (deck s' = deck s /\ player_hand s' = player_hand s /\ dealer_hand s' = dealer_hand s) \/
  (exists c : card,
      deck s = deck s' ++ [c] /\
      ((player_hand s' = player_hand s ++ [c] /\ dealer_hand s' = dealer_hand s) \/
       (player_hand s' = player_hand s /\ dealer_hand s' = dealer_hand s ++ [c]))).
Proof.
  intros (_ & _ & Hpc) Hstep.
  destruct s as [dk ph dh pt dt pm b mv p].
  unfold Francesco.step in Hstep. cbn in Hpc, Hstep.
  destruct p; cbn in Hpc, Hstep.
  - deal_in Hstep. injection Hstep as <-. destruct Hpc as (_ & -> & ->).
    right. exists c. cbn. auto.
  - deal_in Hstep. injection Hstep as <-. destruct Hpc as (_ & _ & ->).
    right. exists c. cbn. auto.
  - destruct mv as [|m rest]; [discriminate|].
    destruct m; cbn in Hstep.
    + deal_in Hstep.
      repeat branch_in Hstep; injection Hstep as <-; right; exists c; cbn; auto.
    + injection Hstep as <-. left. cbn. auto.
    + injection Hstep as <-. left. cbn. auto.
  - branch_in Hstep.
    + injection Hstep as <-. left. cbn. auto.
    + destruct ((Z.of_nat (length ph) =? 2) && (Francesco.calculate_total ph false =? 21)).
      * destruct (Float.int_mul b Float.lit_2_5) as [x|e]; [|discriminate].
        cbn [bind] in Hstep.
        destruct (Float.to_int x) as [w|e]; [|discriminate].
        injection Hstep as <-. left. cbn. auto.
      * injection Hstep as <-. left. cbn. auto.
  - branch_in Hstep.
    + deal_in Hstep.
      branch_in Hstep; injection Hstep as <-; right; exists c; cbn; auto.
    + injection Hstep as <-. left. cbn. auto.
  - repeat branch_in Hstep; injection Hstep as <-; left; cbn; auto.
  - injection Hstep as <-. left. auto.
Qed.

(** C10. At every point of a round the cards of the deck and of the two
    hands are, together, the 104 cards of the double deck; a step of the
    round either leaves deck and hands as they are or moves the last card of
    the deck to the end of one hand, so no card goes back to the deck or
    leaves a hand. *)
Theorem cards_conserved : forall s0 s,
  round_start s0 ->
  reaches s0 s ->
  (length (deck s) + length (player_hand s) + length (dealer_hand s) = 104)%nat /\
  Permutation (deck s ++ player_hand s ++ dealer_hand s) Francesco.create_deck /\
  (forall s', Francesco.step s = Ok s' ->
     (deck s' = deck s /\ player_hand s' = player_hand s /\
      dealer_hand s' = dealer_hand s) \/
     (exists c : card,
        deck s = deck s' ++ [c] /\
        ((player_hand s' = player_hand s ++ [c] /\ dealer_hand s' = dealer_hand s) \/
         (player_hand s' = player_hand s /\ dealer_hand s' = dealer_hand s ++ [c])))).
Proof.
  intros s0 s H0 Hreach.
  pose proof (reaches_inv s0 s H0 Hreach) as Hinv.
  assert (Hperm : Permutation (deck s ++ player_hand s ++ dealer_hand s)
                              Francesco.create_deck).
  { destruct Hinv as (_ & Hperm & _).
    destruct H0 as (shuffled & answers & money & stake & Hs & _ & ->).
    cbn in Hperm. rewrite Hperm. symmetry. exact Hs. }
  split; [|split].
  - apply Permutation_length in Hperm.
    rewrite !length_app in Hperm. rewrite create_deck_length in Hperm. lia.
  - exact Hperm.
  - intros s' Hstep. eapply step_moves_one_card; eassumption.
Qed.

(** After the two cards of the deal and one hit on the deck of
    [create_deck], 101 cards are left in the deck. *)
Lemma cards_conserved_witness :
  match Francesco.run 3 (start Francesco.create_deck [hit] 100 10) with
  | Ok s =>
      (length (deck s) + length (player_hand s) + length (dealer_hand s) = 104)%nat /\
      length (deck s) = 101%nat
  | Raise _ => False
  end.
Proof.
  destruct (Francesco.run 3 (start Francesco.create_deck [hit] 100 10))
    as [s|e] eqn:Hs; [|vm_compute in Hs; discriminate Hs].
  split.
  - apply (cards_conserved (start Francesco.create_deck [hit] 100 10) s).
    + apply round_start_intro; [apply Permutation_refl | lia].
    + eapply run_reaches, Hs.
  - vm_compute in Hs. injection Hs as <-. reflexivity.
Defined.

(** The scoring that [main] performs.  It calls
    [calculate_total(player_hand)] with one argument wherever it scores the
    player's hand, so [has_hit_after_ace] is always [False]: a hit leaves the
    loop exactly when the soft total of the new hand is 21 or more, and from
    the end of the player's turn on [player_total], the total that the
    settlement uses, is the soft total of the player's hand. *)
Lemma player_scored_soft : forall s0 s,
  round_start s0 ->
  reaches s0 s ->
  (at_pc s = PlayerLoop ->
   forall rest c d, moves s = hit :: rest -> deck s = d ++ [c] ->
     let total := Francesco.calculate_total (player_hand s ++ [c]) false in
     exists s',
       Francesco.step s = Ok s' /\
       player_hand s' = player_hand s ++ [c] /\
       at_pc s' = if (total >? 21) || (total =? 21) then PlayerDone else PlayerLoop) /\
  (at_pc s = DealerLoop \/ at_pc s = Compare \/ (exists o, at_pc s = Settled o) ->
   player_total s = Francesco.calculate_total (player_hand s) false).
Proof.
  intros s0 s H0 Hreach.
  pose proof (reaches_inv s0 s H0 Hreach) as (_ & _ & Hinv).
  split.
  - intros Hpc rest c d Hmv Hdk total.
    destruct s as [dk ph dh pt dt pm b mv p]. cbn in *. subst p mv dk.
    unfold Francesco.step. cbn.
    unfold Francesco.deal_card. rewrite pop_snoc. cbn.
    fold total.
    destruct (total >? 21); cbn; [eexists; split; [reflexivity|]; cbn; auto|].
    destruct (total =? 21); cbn; eexists; (split; [reflexivity|]); cbn; auto.
  - intros [Hpc|[Hpc|[o Hpc]]]; rewrite Hpc in Hinv; cbn in Hinv; tauto.
Qed.

(** C3. A defect of [main].  [calculate_total] has the flag
    [has_hit_after_ace] ("a flag to track if the player has hit after
    obtaining an Ace") and the hard mode that goes with it, and its docstring
    in "backup 2.py" says "If the player hits after obtaining an Ace, it is
    worth 1"; [main] never passes the flag.  On the deck of [create_deck] the
    player is dealt the Ace of Spades, hits, and gets the Queen: the player
    held an Ace when hitting, hard mode scores the hand 11, and the round
    scores it 21 and pays it as a blackjack. *)
Theorem hit_after_ace_scored_soft :
  match Francesco.play_round Francesco.create_deck [hit] 100 10 with
  | Ok s =>
      existsb is_ace (removelast (player_hand s)) = true /\
      length (player_hand s) = 2%nat /\
      player_total s = 21 /\
      at_pc s = Settled Blackjack /\
      Francesco.calculate_total (player_hand s) true = 11 /\
      player_total s <> Francesco.calculate_total (player_hand s) true
  | Raise _ => False
  end.
Proof.
  vm_compute. repeat split; discriminate.
Qed.

(** The dealer's loop from a state at its head: with [m] cards at hand in
    the deck and a dealer's hand that [m] more cards bring to 17 cards, it
    comes to the comparison. *)
Lemma dealer_loop_runs : forall (m : nat) (s : state),
  at_pc s = DealerLoop ->
  dealer_total s = Francesco.calculate_total (dealer_hand s) false ->
  (17 <= length (dealer_hand s) + m)%nat ->
  (m <= length (deck s))%nat ->
  exists (n : nat) (drawn : list card) (s' : state),
    Francesco.run n s = Ok s' /\
    at_pc s' = Compare /\
    dealer_hand s' = dealer_hand s ++ drawn /\
    deck s = deck s' ++ rev drawn /\
    player_hand s' = player_hand s /\
    dealer_total s' = Francesco.calculate_total (dealer_hand s') false /\
    17 <= dealer_total s' /\
    (forall k : nat, (k < length drawn)%nat ->
       Francesco.calculate_total (dealer_hand s ++ firstn k drawn) false < 17) /\
    (17 <= dealer_total s -> drawn = []) /\
    (dealer_total s < 17 -> (1 <= length drawn)%nat).
Proof.
  induction m as [|m IH]; intros s Hpc Hdt Hlen Hdeck.
  - (* seventeen cards score 17 at least *)
    pose proof (soft_total_lower (dealer_hand s)) as Hlow.
    exists 1%nat, [], (set_pc Compare s).
    destruct s as [dk ph dh pt dt pm b mv p]. cbn in *. subst p.
    unfold Francesco.step. cbn.
    destruct (Z.ltb_spec dt 17); [lia|].
    rewrite !app_nil_r.
    repeat split; auto; try lia; try (intros k Hk; cbn in Hk; lia).
  - destruct (Z.ltb_spec (dealer_total s) 17) as [Hlt|Hge].
    + (* one more card *)
      destruct s as [dk ph dh pt dt pm b mv p]. cbn in *. subst p.
      destruct (pop_cases dk) as [[-> _]|(c & d & -> & Hpop)]; [cbn in Hdeck; lia|].
      rewrite length_app in Hdeck. cbn in Hdeck.
      set (dh1 := dh ++ [c]).
      set (dt1 := Francesco.calculate_total dh1 false).
      destruct (Z.gtb_spec dt1 21) as [Hbust|Hin].
      * exists 1%nat, [c],
          {| deck := d; player_hand := ph; dealer_hand := dh1; player_total := pt;
             dealer_total := dt1; player_money := pm; bet := b; moves := mv;
             at_pc := Compare |}.
        cbn. unfold Francesco.step. cbn.
        destruct (Z.ltb_spec dt 17); [|lia].
        unfold Francesco.deal_card. rewrite Hpop. cbn. fold dh1. fold dt1.
        destruct (Z.gtb_spec dt1 21); [|lia].
        repeat split; auto; try lia.
        intros k Hk. assert (k = O) by lia. subst k. cbn. rewrite app_nil_r. lia.
      * destruct (IH {| deck := d; player_hand := ph; dealer_hand := dh1;
                        player_total := pt; dealer_total := dt1; player_money := pm;
                        bet := b; moves := mv; at_pc := DealerLoop |})
          as (n & drawn & s' & Hrun & Hpc' & Hdh' & Hdk' & Hph' & Hdt' & Hfin & Hpre & _ & _);
          cbn; auto.
        { unfold dh1. rewrite length_app. cbn. lia. }
        { lia. }
        cbn in Hdh', Hdk', Hph', Hpre.
        exists (S n), (c :: drawn), s'.
        rewrite run_S. unfold Francesco.step. cbn.
        destruct (Z.ltb_spec dt 17); [|lia].
        unfold Francesco.deal_card. rewrite Hpop. cbn. fold dh1. fold dt1.
        destruct (Z.gtb_spec dt1 21); [lia|].
        repeat split; auto; try lia.
        -- rewrite Hdh'. unfold dh1. rewrite <- app_assoc. reflexivity.
        -- rewrite Hdk'. rewrite <- app_assoc. reflexivity.
        -- intros [|k] Hk; cbn.
           ++ rewrite app_nil_r. lia.
           ++ cbn in Hk. specialize (Hpre k ltac:(lia)).
              unfold dh1 in Hpre. rewrite <- app_assoc in Hpre. exact Hpre.
    + exists 1%nat, [], (set_pc Compare s).
      destruct s as [dk ph dh pt dt pm b mv p]. cbn in *. subst p.
      unfold Francesco.step. cbn.
      destruct (Z.ltb_spec dt 17); [lia|].
      rewrite !app_nil_r.
      repeat split; auto; try lia; try (intros k Hk; cbn in Hk; lia).
Qed.

(** C7. The dealer's loop, from any state at its head whose [dealer_total]
    is the score of the dealer's hand and whose deck can bring the hand to
    17 cards: it reaches the comparison after drawing cards one at a time
    from the end of the deck, each appended to the hand and the hand scored
    again; every card is drawn at a total under 17 and the final total is 17
    at least.  A total of 17 or more at entry draws nothing; a total under
    17, such as 16, draws at least one card. *)
Theorem dealer_draws_to_17 : forall s : state,
  at_pc s = DealerLoop ->
  dealer_total s = Francesco.calculate_total (dealer_hand s) false ->
  (17 <= length (dealer_hand s) + length (deck s))%nat ->
  exists (n : nat) (drawn : list card) (s' : state),
    Francesco.run n s = Ok s' /\
    at_pc s' = Compare /\
    dealer_hand s' = dealer_hand s ++ drawn /\
    deck s = deck s' ++ rev drawn /\
    dealer_total s' = Francesco.calculate_total (dealer_hand s') false /\
    17 <= dealer_total s' /\
    (forall k : nat, (k < length drawn)%nat ->
       Francesco.calculate_total (dealer_hand s ++ firstn k drawn) false < 17) /\
    (17 <= dealer_total s -> drawn = []) /\
    (dealer_total s = 16 -> (1 <= length drawn)%nat).
Proof.
  intros s Hpc Hdt Hlen.
  destruct (dealer_loop_runs (length (deck s)) s Hpc Hdt Hlen (Nat.le_refl _))
    as (n & drawn & s' & Hrun & Hpc' & Hdh & Hdk & _ & Hdt' & Hfin & Hpre & Hzero & Hone).
  exists n, drawn, s'. repeat split; auto. intros H16. apply Hone. lia.
Qed.

(** After the deal on the deck of [create_deck] the player stays; the dealer,
    on the King of Spades, draws to 17 or more. *)
Lemma dealer_draws_to_17_witness :
  match Francesco.run 4 (start Francesco.create_deck [stay] 100 10) with
  | Ok s =>
      exists (n : nat) (s' : state),
        Francesco.run n s = Ok s' /\ at_pc s' = Compare /\ 17 <= dealer_total s'
  | Raise _ => False
  end.
Proof.
  destruct (Francesco.run 4 (start Francesco.create_deck [stay] 100 10))
    as [s|e] eqn:Hs; [|vm_compute in Hs; discriminate Hs].
  assert (Hpc : at_pc s = DealerLoop)
    by (vm_compute in Hs; injection Hs as <-; reflexivity).
  assert (Hdt : dealer_total s = Francesco.calculate_total (dealer_hand s) false)
    by (vm_compute in Hs; injection Hs as <-; reflexivity).
  assert (Hlen : (17 <= length (dealer_hand s) + length (deck s))%nat)
    by (vm_compute in Hs; injection Hs as <-; cbn; lia).
  destruct (dealer_draws_to_17 s Hpc Hdt Hlen)
    as (n & drawn & s' & Hrun & Hc & _ & _ & _ & Hfin & _).
  exists n, s'. auto.
Defined.

(** ** Drawing from the deck *)

Lemma deal_cards_ok : forall (n : nat) (dk : list card),
  (n <= length dk)%nat ->
  exists cs rest,
    deal_cards n dk = Ok (cs, rest) /\ length cs = n /\ dk = rest ++ rev cs.
Proof.
  induction n as [|n IH]; intros dk Hn.
  - exists [], dk. cbn. rewrite app_nil_r. auto.
  - destruct (pop_cases dk) as [[-> _]|(c & d & -> & Hpop)]; [cbn in Hn; lia|].
    rewrite length_app in Hn. cbn in Hn.
    destruct (IH d ltac:(lia)) as (cs & rest & Hcs & Hlen & Hd).
    exists (c :: cs), rest. cbn [deal_cards].
    unfold Francesco.deal_card. rewrite Hpop. cbn [bind]. rewrite Hcs. cbn.
    repeat split; auto. rewrite Hd at 1. rewrite <- app_assoc. reflexivity.
Qed.

Lemma deal_cards_raise : forall (n : nat) (dk : list card),
  (length dk < n)%nat -> deal_cards n dk = Raise IndexError.
Proof.
  induction n as [|n IH]; intros dk Hn; [lia|].
  cbn [deal_cards]. unfold Francesco.deal_card.
  destruct (pop_cases dk) as [[-> Hpop]|(c & d & -> & Hpop)]; rewrite Hpop; cbn [bind].
  - reflexivity.
  - rewrite length_app in Hn. cbn in Hn. rewrite (IH d) by lia. reflexivity.
Qed.

(** C8, as the code has it. [deal_card] takes the last card off the deck
    and returns it with the deck that is left; it fails exactly on the empty
    deck, with the [IndexError] that [list.pop] raises.  On the 104 cards of
    [create_deck], however shuffled, any number of draws up to 104 succeeds,
    the last of them emptying the deck, and the 105th raises [IndexError]. *)
Theorem deal_card_until_empty : forall shuffled : list card,
  Francesco.shuffle_deck Francesco.create_deck shuffled ->
  (forall dk : list card,
      (Francesco.deal_card dk = Raise IndexError <-> dk = []) /\
      (forall e, Francesco.deal_card dk = Raise e -> e = IndexError) /\
      (forall c d, Francesco.deal_card dk = Ok (c, d) <-> dk = d ++ [c])) /\
  length shuffled = 104%nat /\
  (forall n : nat, (n <= 104)%nat ->
     exists cs rest,
       deal_cards n shuffled = Ok (cs, rest) /\
       length cs = n /\ shuffled = rest ++ rev cs) /\
  (exists cs, deal_cards 104 shuffled = Ok (cs, []) /\
              Francesco.deal_card [] = Raise IndexError) /\
  deal_cards 105 shuffled = Raise IndexError.
Proof.
  intros shuffled Hs.
  assert (Hlen : length shuffled = 104%nat).
  { rewrite <- (Permutation_length Hs). reflexivity. }
  split; [|split; [exact Hlen|split; [|split]]].
  - intros dk. split; [|split].
    + split.
      * intros H. apply pop_raise in H. tauto.
      * intros ->. reflexivity.
    + intros e H. apply pop_raise in H. tauto.
    + intros c d. apply pop_ok.
  - intros n Hn. apply deal_cards_ok. lia.
  - destruct (deal_cards_ok 104 shuffled ltac:(lia)) as (cs & rest & Hcs & Hl & Hd).
    assert (rest = []).
    { apply (f_equal (@length card)) in Hd.
      rewrite length_app, length_rev in Hd.
      destruct rest; [reflexivity | cbn in Hd; lia]. }
    subst rest. exists cs. split; [exact Hcs | reflexivity].
  - apply deal_cards_raise. lia.
Qed.

(** C8, as the specification states it, names an exception that the
    program does not have: on the empty deck [deal_card] raises the built-in
    [IndexError], and no class called EmptyDeckError. *)
Lemma deal_card_raises_index_error :
  match Francesco.deal_card [] with
  | Raise e =>
      e = IndexError /\
      exn_name e = "IndexError"%string /\
      exn_name e <> "EmptyDeckError"%string
  | Ok _ => False
  end.
Proof.
  cbn. repeat split. discriminate.
Qed.

(** The deck of [create_deck] as built: two draws give the Ace and the King
    of Spades, and the 105th draw fails. *)
Lemma deal_card_until_empty_witness :
  deal_cards 2 Francesco.create_deck
    = Ok ([{| value := Ace; suit := Spades |}; {| value := King; suit := Spades |}],
          removelast (removelast Francesco.create_deck)) /\
  deal_cards 105 Francesco.create_deck = Raise IndexError.
Proof.
  split.
  - vm_compute. reflexivity.
  - apply (deal_card_until_empty Francesco.create_deck (Permutation_refl _)).
Defined.

(** ** The two programs *)

(** C9. The two files compute the same: [create_deck], [card_value],
    [calculate_total] and [deal_card] return equal results on every input,
    every step of a round is the same step, and a round on the same deck,
    answers, balance and bet ends in the same state, so with the same change
    of the balance, or with the same exception. *)
Theorem programs_agree :
  Francesco.create_deck = Backup2.create_deck /\
  (forall c, Francesco.card_value c = Backup2.card_value c) /\
  (forall hand has_hit_after_ace,
      Francesco.calculate_total hand has_hit_after_ace
      = Backup2.calculate_total hand has_hit_after_ace) /\
  (forall dk, Francesco.deal_card dk = Backup2.deal_card dk) /\
  (forall dk shuffled,
      Francesco.shuffle_deck dk shuffled <-> Backup2.shuffle_deck dk shuffled) /\
  (forall s, Francesco.step s = Backup2.step s) /\
  (forall n s, Francesco.run n s = Backup2.run n s) /\
  (forall shuffled answers money stake,
      Francesco.play_round shuffled answers money stake
      = Backup2.play_round shuffled answers money stake) /\
  (forall shuffled answers money stake s,
      Francesco.play_round shuffled answers money stake = Ok s ->
      exists s',
        Backup2.play_round shuffled answers money stake = Ok s' /\
        player_money s' - money = player_money s - money).
Proof.
  assert (Hcv : forall c, Francesco.card_value c = Backup2.card_value c)
    by reflexivity.
  assert (Hct : forall hand b,
             Francesco.calculate_total hand b = Backup2.calculate_total hand b).
  { intros hand b. unfold Francesco.calculate_total, Backup2.calculate_total.
    assert (Hch : Francesco.count_hand hand = Backup2.count_hand hand) by reflexivity.
    rewrite Hch. clear Hch. destruct (Backup2.count_hand hand) as [total aces].
    destruct b; [reflexivity|].
    revert total. induction aces as [|aces IH]; intros total; cbn; [reflexivity|].
    destruct (total >? 21); [apply IH | reflexivity]. }
  assert (Hstep : forall s, Francesco.step s = Backup2.step s).
  { intros s. unfold Francesco.step, Backup2.step.
    unfold Francesco.deal_card, Backup2.deal_card.
    destruct (at_pc s); reflexivity. }
  assert (Hrun : forall n s, Francesco.run n s = Backup2.run n s).
  { induction n as [|n IH]; intros s; cbn; [reflexivity|].
    rewrite Hstep.
    destruct (at_pc s); try reflexivity;
      destruct (Backup2.step s) as [s1|e]; cbn [bind]; auto. }
  assert (Hround : forall shuffled answers money stake,
             Francesco.play_round shuffled answers money stake
             = Backup2.play_round shuffled answers money stake).
  { intros. unfold Francesco.play_round, Backup2.play_round. apply Hrun. }
  split; [reflexivity|]. split; [exact Hcv|]. split; [exact Hct|].
  split; [reflexivity|]. split; [intros; reflexivity|].
  split; [exact Hstep|]. split; [exact Hrun|]. split; [exact Hround|].
  intros shuffled answers money stake s H.
  exists s. rewrite <- Hround. split; [exact H | reflexivity].
Qed.

(** ** The blackjack payout: [int(bet * 2.5)] in binary64 *)

Lemma iter_pos_nat {A : Type} (f : A -> A) : forall (n : positive) (x : A),
  iter_pos f n x = Nat.iter (Pos.to_nat n) f x.
Proof.
  induction n as [n IH|n IH|]; intros x; cbn [iter_pos].
  - rewrite !IH, Pos2Nat.inj_xI.
    change (S (2 * Pos.to_nat n)) with (1 + 2 * Pos.to_nat n)%nat.
    replace (1 + 2 * Pos.to_nat n)%nat with (Pos.to_nat n + (Pos.to_nat n + 1))%nat by lia.
    rewrite !Nat.iter_add. reflexivity.
  - rewrite !IH, Pos2Nat.inj_xO.
    replace (2 * Pos.to_nat n)%nat with (Pos.to_nat n + Pos.to_nat n)%nat by lia.
    rewrite Nat.iter_add. reflexivity.
  - reflexivity.
Qed.

Lemma digits_shifted (q : positive) : forall k : nat,
  Zpos (digits2_pos (Nat.iter k xO q)) = Zpos (digits2_pos q) + Z.of_nat k.
Proof.
  induction k as [|k IH].
  - cbn. lia.
  - change (Nat.iter (S k) xO q) with (xO (Nat.iter k xO q)).
    cbn [digits2_pos]. rewrite Pos2Z.inj_succ, IH. lia.
Qed.

Lemma value_shifted (q : positive) : forall k : nat,
  Zpos (Nat.iter k xO q) = Zpos q * 2 ^ Z.of_nat k.
Proof.
  induction k as [|k IH].
  - cbn. lia.
  - change (Nat.iter (S k) xO q) with (xO (Nat.iter k xO q)).
    rewrite Pos2Z.inj_xO, IH, Nat2Z.inj_succ, Z.pow_succ_r by lia. lia.
Qed.

Lemma shr_shifted (q : positive) : forall k : nat,
  Nat.iter k shr_1 {| shr_m := Zpos (Nat.iter k xO q); shr_r := false; shr_s := false |}
  = {| shr_m := Zpos q; shr_r := false; shr_s := false |}.
Proof.
  induction k as [|k IH]; [reflexivity|].
  rewrite Nat.iter_succ_r.
  change (Nat.iter (S k) xO q) with (xO (Nat.iter k xO q)).
  cbn [shr_1 orb]. exact IH.
Qed.

Lemma mul_shifted (p r : positive) : forall a b : nat,
  (Nat.iter a xO p * Nat.iter b xO r)%positive = Nat.iter (a + b) xO (p * r)%positive.
Proof.
  induction a as [|a IHa]; intros b.
  - induction b as [|b IHb]; [reflexivity|].
    change (Nat.iter (S b) xO r) with (xO (Nat.iter b xO r)).
    change (Nat.iter (0 + S b) xO (p * r)%positive)
      with (xO (Nat.iter (0 + b) xO (p * r)%positive)).
    rewrite Pos.mul_xO_r, IHb. reflexivity.
  - change (Nat.iter (S a) xO p) with (xO (Nat.iter a xO p)).
    change (Nat.iter (S a + b) xO (p * r)%positive)
      with (xO (Nat.iter (a + b) xO (p * r)%positive)).
    cbn [Pos.mul]. rewrite IHa. reflexivity.
Qed.

Lemma digits_bound : forall (m : positive) (k : Z),
  0 <= k -> Zpos m < 2 ^ k -> Zpos (digits2_pos m) <= k.
Proof.
  induction m as [m IH|m IH|]; intros k Hk Hlt; cbn [digits2_pos].
  - assert (k <> 0) by (intros ->; cbn in Hlt; lia).
    replace k with (Z.succ (k - 1)) in Hlt by lia.
    rewrite Z.pow_succ_r in Hlt by lia.
    rewrite Pos2Z.inj_succ. specialize (IH (k - 1)). lia.
  - assert (k <> 0) by (intros ->; cbn in Hlt; lia).
    replace k with (Z.succ (k - 1)) in Hlt by lia.
    rewrite Z.pow_succ_r in Hlt by lia.
    rewrite Pos2Z.inj_succ. specialize (IH (k - 1)). lia.
  - assert (k <> 0) by (intros ->; cbn in Hlt; lia). lia.
Qed.

(** Rounding a mantissa of 53 digits followed by [k] zero bits is exact. *)
Lemma round_aux_exact (q : positive) (k : nat) (e : Z) (sx : bool) :
  Zpos (digits2_pos q) = 53 ->
  -1074 <= e + Z.of_nat k <= 971 ->
  binary_round_aux 53 1024 sx (Zpos (Nat.iter k xO q)) e loc_Exact
  = S754_finite sx q (e + Z.of_nat k).
Proof.
  intros Hq He.
  unfold binary_round_aux.
  assert (H1 : shr_fexp 53 1024 (Zpos (Nat.iter k xO q)) e loc_Exact
               = ({| shr_m := Zpos q; shr_r := false; shr_s := false |}, e + Z.of_nat k)).
  { unfold shr_fexp. cbn [Zdigits2 shr_record_of_loc].
    rewrite digits_shifted, Hq.
    replace (fexp 53 1024 (53 + Z.of_nat k + e) - e) with (Z.of_nat k)
      by (unfold fexp, emin; lia).
    destruct k as [|k].
    - cbn [Z.of_nat]. rewrite Z.add_0_r. reflexivity.
    - change (Z.of_nat (S k)) with (Zpos (Pos.of_succ_nat k)).
      cbn [shr].
      rewrite iter_pos_nat, SuccNat2Pos.id_succ, shr_shifted. reflexivity. }
  rewrite H1. cbn [shr_m loc_of_shr_record round_nearest_even].
  assert (H2 : shr_fexp 53 1024 (Zpos q) (e + Z.of_nat k) loc_Exact
               = ({| shr_m := Zpos q; shr_r := false; shr_s := false |}, e + Z.of_nat k)).
  { unfold shr_fexp. cbn [Zdigits2 shr_record_of_loc]. rewrite Hq.
    replace (fexp 53 1024 (53 + (e + Z.of_nat k)) - (e + Z.of_nat k)) with 0
      by (unfold fexp, emin; lia).
    reflexivity. }
  rewrite H2. cbn [shr_m].
  replace (e + Z.of_nat k <=? 1024 - 53) with true by (symmetry; apply Z.leb_le; lia).
  reflexivity.
Qed.

(** [float(n)] is exact for a positive integer of at most 53 bits: the
    mantissa is [n] shifted up to 53 digits. *)
Lemma of_int_exact (p : positive) :
  Zpos (digits2_pos p) <= 53 ->
  Float.of_int (Zpos p)
  = Ok (S754_finite false
          (Nat.iter (Z.to_nat (53 - Zpos (digits2_pos p))) xO p)
          (Zpos (digits2_pos p) - 53)).
Proof.
  intros Hd. unfold Float.of_int, Float.prec, Float.emax.
  cbn [binary_normalize]. unfold binary_round.
  set (d := Zpos (digits2_pos p)) in *.
  assert (Hd1 : 1 <= d) by (unfold d; lia).
  replace (fexp 53 1024 (d + 0)) with (d - 53) by (unfold fexp, emin; lia).
  unfold shl_align.
  destruct (d - 53 - 0) as [|k|k] eqn:Hk; try lia.
  - change (Zpos p) with (Zpos (Nat.iter 0 xO p)).
    rewrite round_aux_exact; [|fold d; lia|cbn; lia].
    replace (53 - d) with 0 by lia. replace (d - 53) with 0 by lia. reflexivity.
  - rewrite Pos2Nat.inj_iter.
    change (nat_rect (fun _ => positive) p (fun _ => xO) (Pos.to_nat k))
      with (Nat.iter (Pos.to_nat k) xO p).
    replace (Z.to_nat (53 - d)) with (Pos.to_nat k) by lia.
    change (Zpos (Nat.iter (Pos.to_nat k) xO p))
      with (Zpos (Nat.iter 0 xO (Nat.iter (Pos.to_nat k) xO p))).
    rewrite round_aux_exact.
    + cbn [Nat.iter nat_rect Z.of_nat]. rewrite Z.add_0_r. reflexivity.
    + rewrite digits_shifted. fold d. lia.
    + cbn. lia.
Qed.

(** [int(bet * 2.5)] is the floor of 2.5 times the bet as long as five times
    the bet fits the 53 bits of a mantissa. *)
Lemma blackjack_win_exact (stake : Z) :
  0 < stake -> 5 * stake < 2 ^ 53 -> blackjack_win stake = Ok (5 * stake / 2).
Proof.
  intros Hpos Hfit.
  destruct stake as [|p|p]; try lia.
  assert (Hd : Zpos (digits2_pos p) <= 51).
  { apply digits_bound; [lia|]. change (2 ^ 51) with 2251799813685248.
    change (2 ^ 53) with 9007199254740992 in Hfit. lia. }
  assert (Hd5 : Zpos (digits2_pos (p * 5)) <= 53).
  { apply digits_bound; [lia|]. rewrite Pos2Z.inj_mul. lia. }
  unfold blackjack_win, Float.int_mul.
  rewrite of_int_exact by lia. cbn [bind].
  unfold Float.mul, Float.lit_2_5, Float.prec, Float.emax. cbn [SFmul xorb].
  set (d := Zpos (digits2_pos p)) in *.
  set (d5 := Zpos (digits2_pos (p * 5))) in *.
  assert (Hd1 : 1 <= d) by (unfold d; lia).
  assert (Hd51 : 1 <= d5) by (unfold d5; lia).
  change 5629499534213120%positive with (Nat.iter 50 xO 5%positive).
  rewrite mul_shifted.
  set (c := Z.to_nat (53 - d5)).
  set (k := (Z.to_nat (53 - d) + 50 - c)%nat).
  replace (Z.to_nat (53 - d) + 50)%nat with (k + c)%nat by (unfold k, c; lia).
  rewrite Nat.iter_add.
  rewrite round_aux_exact;
    [|rewrite digits_shifted; fold d5; unfold c; lia | unfold k, c; lia].
  unfold Float.to_int, cond_Zopp.
  destruct (d - 53 + -51 + Z.of_nat k) as [|j|j] eqn:He;
    [unfold k, c in He; lia | unfold k, c in He; lia |].
  rewrite Z.shiftr_div_pow2 by lia.
  rewrite value_shifted, Pos2Z.inj_mul.
  replace (Zpos j) with (Z.succ (Z.of_nat c)) by (unfold k, c in *; lia).
  rewrite Z.pow_succ_r by lia.
  rewrite Z.div_mul_cancel_r by (try apply Z.pow_nonzero; lia).
  f_equal. f_equal. lia.
Qed.

(** The step at the end of the player's turn on two cards that score 21:
    it raises what [int(bet * 2.5)] raises, and otherwise settles the round as
    a blackjack, adding that amount to the balance and leaving deck and hands
    as they are. *)
Lemma blackjack_step : forall s0 s,
  round_start s0 ->
  reaches s0 s ->
  at_pc s = PlayerDone ->
  natural (player_hand s) ->
  (forall e, blackjack_win (bet s0) = Raise e -> Francesco.step s = Raise e) /\
  (forall win, blackjack_win (bet s0) = Ok win ->
     exists s',
       Francesco.step s = Ok s' /\
       at_pc s' = Settled Blackjack /\
       player_money s' = player_money s0 + win /\
       deck s' = deck s /\
       player_hand s' = player_hand s /\
       dealer_hand s' = dealer_hand s /\
       length (dealer_hand s') = 1%nat /\
       (forall n, Francesco.run n s' = Ok s')) /\
  (5 * bet s0 < 2 ^ 53 -> blackjack_win (bet s0) = Ok (5 * bet s0 / 2)).
Proof.
  intros s0 s H0 Hreach Hpc [Hlen Htot].
  pose proof (reaches_inv s0 s H0 Hreach) as (Hbet & _ & Hinv).
  rewrite Hpc in Hinv. destruct Hinv as (Hm & Hdh & _).
  assert (Hstake : 0 < bet s0).
  { destruct H0 as (shuffled & answers & money & stake & _ & Hb & ->). cbn. lia. }
  assert (Hstep : Francesco.step s
                  = x <- Float.int_mul (bet s) Float.lit_2_5 ;;
                    win <- Float.to_int x ;;
                    Ok (set_pc (Settled Blackjack)
                          (set_player_money
                             (player_money s + win)
                             (set_player_total
                                (Francesco.calculate_total (player_hand s) false) s)))).
  { destruct s as [dk ph dh pt dt pm b mv p]. cbn in *. subst p.
    unfold Francesco.step. cbn. rewrite Htot, Hlen. reflexivity. }
  rewrite Hstep, Hbet. unfold blackjack_win.
  split; [|split].
  - intros e He.
    destruct (Float.int_mul (bet s0) Float.lit_2_5) as [x|e']; cbn [bind] in *.
    + rewrite He. reflexivity.
    + injection He as ->. reflexivity.
  - intros win Hw.
    destruct (Float.int_mul (bet s0) Float.lit_2_5) as [x|e']; cbn [bind] in *;
      [|discriminate].
    rewrite Hw. cbn [bind]. eexists. split; [reflexivity|].
    destruct s as [dk ph dh pt dt pm b mv p]. cbn in *.
    repeat split; auto; try lia.
    intros n. eapply run_settled. reflexivity.
  - intros Hfit. apply blackjack_win_exact; assumption.
Qed.

(** C5, as the code has it. When the player's turn ends on two cards that
    score 21 and five times the bet is below 2^53, the next step settles the
    round as a blackjack and the balance is the one the round started with
    plus the floor of 2.5 times the bet; the counterpart draws no card in that
    round: no card leaves the deck, the dealer's hand stays the one card of
    the deal, and nothing happens after the settlement. *)
Theorem blackjack_settles_at_once : forall s0 s,
  round_start s0 ->
  reaches s0 s ->
  at_pc s = PlayerDone ->
  natural (player_hand s) ->
  5 * bet s0 < 2 ^ 53 ->
  exists s',
    Francesco.step s = Ok s' /\
    at_pc s' = Settled Blackjack /\
    player_money s' = player_money s0 + 5 * bet s0 / 2 /\
    deck s' = deck s /\
    player_hand s' = player_hand s /\
    dealer_hand s' = dealer_hand s /\
    length (dealer_hand s') = 1%nat /\
    (forall n, Francesco.run n s' = Ok s').
Proof.
  intros s0 s H0 Hreach Hpc Hnat Hfit.
  destruct (blackjack_step s0 s H0 Hreach Hpc Hnat) as (_ & Hwin & Hfloor).
  apply Hwin. apply Hfloor. exact Hfit.
Qed.

(** C5, as the specification states it, fails for a large bet: with a
    buy-in and bet of 1801439850948199 on the deck of [create_deck], the
    player holds the Ace and the Queen of Spades; 2.5 times the bet is
    4503599627370497.5, which no float is, and the round pays the float next
    to it, 4503599627370498, one more than the floor. *)
Lemma blackjack_pays_rounded_product :
  match Francesco.play_round Francesco.create_deck [hit]
          1801439850948199 1801439850948199 with
  | Ok s =>
      natural (player_hand s) /\
      at_pc s = Settled Blackjack /\
      length (dealer_hand s) = 1%nat /\
      player_money s - 1801439850948199 = 4503599627370498 /\
      5 * 1801439850948199 / 2 = 4503599627370497 /\
      player_money s - 1801439850948199 <> 5 * 1801439850948199 / 2
  | Raise _ => False
  end.
Proof.
  vm_compute. repeat split; discriminate.
Qed.

(** On the deck of [create_deck] the player is dealt the Ace of Spades and
    hits the Queen: a bet of 10 out of 100 is paid 25. *)
Lemma blackjack_settles_at_once_witness :
  match Francesco.run 3 (start Francesco.create_deck [hit] 100 10) with
  | Ok s =>
      exists s',
        Francesco.step s = Ok s' /\
        at_pc s' = Settled Blackjack /\
        player_money s' = 100 + 25
  | Raise _ => False
  end.
Proof.
  destruct (Francesco.run 3 (start Francesco.create_deck [hit] 100 10))
    as [s|e] eqn:Hs; [|vm_compute in Hs; discriminate Hs].
  destruct (blackjack_settles_at_once (start Francesco.create_deck [hit] 100 10) s)
    as (s' & Hstep & Hpc & Hmoney & _).
  - apply round_start_intro; [apply Permutation_refl | lia].
  - eapply run_reaches, Hs.
  - vm_compute in Hs. injection Hs as <-. reflexivity.
  - vm_compute in Hs. injection Hs as <-. split; reflexivity.
  - cbn. lia.
  - exists s'. auto.
Defined.

(** ** More on the hand scorer *)

Lemma existsb_is_ace hand : existsb is_ace hand = negb (count_aces hand =? 0)%nat.
Proof.
  unfold count_aces. induction hand as [|c hand IH]; [reflexivity|].
  cbn [existsb filter]. destruct (is_ace c); cbn; auto.
Qed.

(** X1. The soft total in closed form: it is the total with every Ace at 1
    (the hard total), plus 10 exactly when the hand holds an Ace and the 10
    fit within 21.  So at most one Ace ever counts 11. *)
Theorem soft_total_closed_form : forall hand : list card,
  Francesco.calculate_total hand false
  = if existsb is_ace hand && (Francesco.calculate_total hand true + 10 <=? 21)
    then Francesco.calculate_total hand true + 10
    else Francesco.calculate_total hand true.
Proof.
  intros hand.
  rewrite calculate_total_soft, calculate_total_hard, existsb_is_ace.
  destruct (adjust_aces_spec (count_aces hand) (raw_total hand))
    as (k & Hk & Heq & Hstop & Hall).
  pose proof (raw_total_lower hand) as Hlow.
  pose proof (filter_length_le is_ace hand) as Hfil. fold (count_aces hand) in Hfil.
  rewrite Heq in *.
  destruct (Nat.eqb_spec (count_aces hand) 0) as [Hz|Hnz]; cbn [negb andb].
  - assert (k = O) by lia. subst k. lia.
  - destruct (Z.leb_spec (raw_total hand - Z.of_nat (count_aces hand) * 10 + 10) 21)
      as [Hfit|Hover].
    + assert (Hlt : (k < count_aces hand)%nat).
      { destruct (Nat.lt_ge_cases k (count_aces hand)) as [|Hge]; [assumption|].
        specialize (Hall (count_aces hand - 1)%nat ltac:(lia)). lia. }
      specialize (Hstop Hlt). lia.
    + destruct (Nat.eq_dec k (count_aces hand)) as [->|Hne]; [lia|].
      specialize (Hstop ltac:(lia)). lia.
Qed.

Lemma raw_total_perm h h' : Permutation h h' -> raw_total h = raw_total h'.
Proof.
  intros H. induction H as [|x l l' _ IH|x y l|l l' l'' _ IH1 _ IH2].
  - reflexivity.
  - change (raw_total (x :: l)) with (Francesco.card_value x + raw_total l).
    change (raw_total (x :: l')) with (Francesco.card_value x + raw_total l'). lia.
  - change (raw_total (y :: x :: l))
      with (Francesco.card_value y + (Francesco.card_value x + raw_total l)).
    change (raw_total (x :: y :: l))
      with (Francesco.card_value x + (Francesco.card_value y + raw_total l)). lia.
  - lia.
Qed.

Lemma count_aces_perm h h' : Permutation h h' -> count_aces h = count_aces h'.
Proof.
  intros H. unfold count_aces. induction H; cbn [filter]; auto.
  - destruct (is_ace x); cbn; auto.
  - destruct (is_ace x), (is_ace y); reflexivity.
  - congruence.
Qed.

(** X2. The score of a hand does not depend on the order of its cards, in
    either mode. *)
Theorem calculate_total_perm : forall (h h' : list card) (has_hit_after_ace : bool),
  Permutation h h' ->
  Francesco.calculate_total h has_hit_after_ace
  = Francesco.calculate_total h' has_hit_after_ace.
Proof.
  intros h h' b H.
  destruct b.
  - rewrite !calculate_total_hard, (raw_total_perm h h' H), (count_aces_perm h h' H).
    reflexivity.
  - rewrite !calculate_total_soft, (raw_total_perm h h' H), (count_aces_perm h h' H).
    reflexivity.
Qed.

(** King then Ace scores as Ace then King. *)
Lemma calculate_total_perm_witness :
  Francesco.calculate_total
    [{| value := King; suit := Hearts |}; {| value := Ace; suit := Clubs |}] false
  = Francesco.calculate_total
      [{| value := Ace; suit := Clubs |}; {| value := King; suit := Hearts |}] false.
Proof.
  apply calculate_total_perm. apply perm_swap.
Defined.

Lemma raw_total_upper hand : raw_total hand <= 11 * Z.of_nat (length hand).
Proof.
  induction hand as [|c hand IH]; [cbn; lia|].
  cbn [raw_total fold_right length]. fold (raw_total hand).
  pose proof (card_value_bounds c) as Hc. destruct (is_ace c); lia.
Qed.

(** X3. Bounds on a score: a hand of [n] cards scores at least [n] with
    every Ace at 1, no more in hard mode than in soft mode, and at most
    [11 * n]; a hand without an Ace scores the plain sum of its card values
    in both modes. *)
Theorem calculate_total_bounds : forall hand : list card,
  Z.of_nat (length hand) <= Francesco.calculate_total hand true /\
  Francesco.calculate_total hand true <= Francesco.calculate_total hand false /\
  Francesco.calculate_total hand false <= raw_total hand /\
  raw_total hand <= 11 * Z.of_nat (length hand) /\
  (existsb is_ace hand = false ->
   forall has_hit_after_ace,
     Francesco.calculate_total hand has_hit_after_ace = raw_total hand).
Proof.
  intros hand.
  pose proof (raw_total_lower hand) as Hlow.
  pose proof (raw_total_upper hand) as Hup.
  rewrite calculate_total_soft, calculate_total_hard.
  destruct (adjust_aces_spec (count_aces hand) (raw_total hand))
    as (k & Hk & Heq & _ & _).
  repeat split; try lia.
  intros Hno [|].
  - rewrite calculate_total_hard. rewrite existsb_is_ace in Hno.
    destruct (Nat.eqb_spec (count_aces hand) 0); [lia | discriminate].
  - rewrite calculate_total_soft. rewrite existsb_is_ace in Hno.
    destruct (Nat.eqb_spec (count_aces hand) 0) as [Hz|]; [|discriminate].
    rewrite Hz. reflexivity.
Qed.

(** X4. A hand is two cards scoring 21, the hand that [main] pays as a
    blackjack, exactly when it is an Ace and a Ten, Jack, Queen or King, in
    either order. *)
Theorem natural_iff_ace_and_ten : forall hand : list card,
  natural hand <->
  exists c1 c2,
    hand = [c1; c2] /\
    ((value c1 = Ace /\ ten_valued (value c2) = true) \/
     (ten_valued (value c1) = true /\ value c2 = Ace)).
Proof.
  intros hand. unfold natural. split.
  - intros [Hlen Htot].
    destruct hand as [|c1 [|c2 [|c3 rest]]]; try discriminate.
    exists c1, c2. split; [reflexivity|].
    destruct c1 as [v1 s1], c2 as [v2 s2]. cbn [value].
    destruct v1, v2; vm_compute in Htot; try discriminate; cbn; auto.
  - intros (c1 & c2 & -> & H). split; [reflexivity|].
    destruct c1 as [v1 s1], c2 as [v2 s2]. cbn [value] in H.
    destruct H as [[-> Ht]|[Ht ->]].
    + destruct v2; try discriminate; reflexivity.
    + destruct v1; try discriminate; reflexivity.
Qed.

(** ** The deck *)

(** X5. However the double deck is shuffled, each of the 52 cards is in it
    exactly twice. *)
Theorem shuffled_deck_two_of_each : forall shuffled : list card,
  Francesco.shuffle_deck Francesco.create_deck shuffled ->
  forall c : card, count_occ card_eq_dec shuffled c = 2%nat.
Proof.
  intros shuffled Hs c.
  rewrite <- (proj1 (Permutation_count_occ card_eq_dec _ _) Hs c).
  destruct c as [v s]. destruct v, s; vm_compute; reflexivity.
Qed.

(** The deck of [create_deck] reversed holds two Aces of Spades. *)
Lemma shuffled_deck_two_of_each_witness :
  count_occ card_eq_dec (rev Francesco.create_deck)
            {| value := Ace; suit := Spades |} = 2%nat.
Proof.
  apply shuffled_deck_two_of_each. apply Permutation_rev.
Defined.

(** ** Cards and exceptions in a round *)

Lemma step_hand_bounds s0 s s' :
  round_inv s0 s -> hand_bounds s -> Francesco.step s = Ok s' -> hand_bounds s'.
Proof.
  intros (_ & _ & Hpc) [Hp Hd] Hstep.
  destruct s as [dk ph dh pt dt pm b mv p].
  unfold Francesco.step in Hstep. unfold hand_bounds in *. cbn in Hpc, Hstep, Hp, Hd.
  destruct p; cbn in Hpc, Hstep.
  - deal_in Hstep. injection Hstep as <-. cbn. lia.
  - deal_in Hstep. injection Hstep as <-. cbn. lia.
  - destruct Hpc as (_ & _ & Hph).
    destruct mv as [|m rest]; [discriminate|].
    destruct m; cbn in Hstep.
    + deal_in Hstep.
      assert (length ph <= 20)%nat.
      { destruct Hph as [Hone|[_ Hlt]]; [lia|].
        pose proof (soft_total_lower ph). lia. }
      repeat branch_in Hstep; injection Hstep as <-; cbn;
        rewrite length_app; cbn; lia.
    + injection Hstep as <-. cbn. lia.
    + injection Hstep as <-. cbn. lia.
  - branch_in Hstep.
    + injection Hstep as <-. cbn. lia.
    + destruct ((Z.of_nat (length ph) =? 2) && (Francesco.calculate_total ph false =? 21)).
      * destruct (Float.int_mul b Float.lit_2_5) as [x|e]; [|discriminate].
        cbn [bind] in Hstep.
        destruct (Float.to_int x) as [w|e]; [|discriminate].
        injection Hstep as <-. cbn. lia.
      * injection Hstep as <-. cbn. lia.
  - destruct Hpc as (_ & _ & _ & _ & Hdt & _).
    branch_in Hstep.
    + deal_in Hstep.
      pose proof (soft_total_lower dh).
      branch_in Hstep; injection Hstep as <-; cbn; rewrite length_app; cbn; lia.
    + injection Hstep as <-. cbn. lia.
  - repeat branch_in Hstep; injection Hstep as <-; cbn; lia.
  - injection Hstep as <-. cbn. lia.
Qed.

Lemma reaches_hand_bounds s0 s : round_start s0 -> reaches s0 s -> hand_bounds s.
Proof.
  intros H0 Hr. induction Hr as [|s s' Hr IH Hstep].
  - destruct H0 as (shuffled & answers & money & stake & _ & _ & ->).
    unfold hand_bounds. cbn. lia.
  - eapply step_hand_bounds; [apply (reaches_inv s0 s H0 Hr) | exact IH | exact Hstep].
Qed.

Lemma round_start_deck s0 : round_start s0 -> length (deck s0) = 104%nat.
Proof.
  intros (shuffled & answers & money & stake & Hs & _ & ->). cbn.
  rewrite <- (Permutation_length Hs). reflexivity.
Qed.

Lemma cards_total s0 s :
  round_start s0 -> reaches s0 s ->
  (length (deck s) + length (player_hand s) + length (dealer_hand s) = 104)%nat.
Proof.
  intros H0 Hr. destruct (reaches_inv s0 s H0 Hr) as (_ & Hperm & _).
  apply Permutation_length in Hperm. rewrite !length_app in Hperm.
  rewrite (round_start_deck s0 H0) in Hperm. lia.
Qed.

(** The exceptions of a step: the answers ran out, or the payout raised. *)
Lemma step_raise_cases s0 s e :
  round_start s0 -> reaches s0 s -> Francesco.step s = Raise e ->
  (e = EOFError /\ at_pc s = PlayerLoop /\ moves s = []) \/
  (at_pc s = PlayerDone /\ blackjack_win (bet s0) = Raise e).
Proof.
  intros H0 Hr Hstep.
  pose proof (cards_total s0 s H0 Hr) as Htot.
  pose proof (reaches_hand_bounds s0 s H0 Hr) as [Hp Hd].
  destruct (reaches_inv s0 s H0 Hr) as (Hbet & _ & Hpc).
  destruct s as [dk ph dh pt dt pm b mv p].
  unfold Francesco.step in Hstep. cbn in *.
  assert (Hdeal : forall x, Francesco.deal_card dk = Raise x -> dk = []).
  { intros x Hx. apply pop_raise in Hx. tauto. }
  destruct p; cbn in Hpc, Hstep.
  - destruct (Francesco.deal_card dk) as [[c d]|x] eqn:Hd'; [discriminate|].
    rewrite (Hdeal x eq_refl) in Htot. destruct Hpc as (_ & -> & ->). cbn in Htot. lia.
  - destruct (Francesco.deal_card dk) as [[c d]|x] eqn:Hd'; [discriminate|].
    rewrite (Hdeal x eq_refl) in Htot. cbn in Htot. lia.
  - destruct mv as [|m rest].
    + injection Hstep as <-. left. auto.
    + destruct m; cbn in Hstep; try discriminate.
      destruct (Francesco.deal_card dk) as [[c d]|x] eqn:Hd'.
      * cbn [bind] in Hstep. repeat branch_in Hstep; discriminate.
      * rewrite (Hdeal x eq_refl) in Htot. cbn in Htot. lia.
  - right. split; [reflexivity|].
    branch_in Hstep; [discriminate|].
    destruct ((Z.of_nat (length ph) =? 2) && (Francesco.calculate_total ph false =? 21));
      [|discriminate].
    rewrite <- Hbet. unfold blackjack_win.
    destruct (Float.int_mul b Float.lit_2_5) as [x|e']; cbn [bind] in *.
    + destruct (Float.to_int x) as [w|e'']; [discriminate|].
      cbn [bind] in Hstep. injection Hstep as <-. reflexivity.
    + injection Hstep as <-. reflexivity.
  - branch_in Hstep; [|discriminate].
    destruct (Francesco.deal_card dk) as [[c d]|x] eqn:Hd'.
    + cbn [bind] in Hstep. branch_in Hstep; discriminate.
    + rewrite (Hdeal x eq_refl) in Htot. cbn in Htot. lia.
  - repeat branch_in Hstep; discriminate.
  - discriminate.
Qed.

Lemma run_raise : forall n s0 s e,
  round_start s0 -> reaches s0 s -> Francesco.run n s = Raise e ->
  exists s1, reaches s0 s1 /\ Francesco.step s1 = Raise e.
Proof.
  induction n as [|n IH]; intros s0 s e H0 Hr Hrun; [discriminate|].
  rewrite run_S in Hrun.
  destruct (Francesco.step s) as [s'|e'] eqn:Hstep; cbn [bind] in Hrun.
  - apply (IH s0 s' e H0); [|exact Hrun]. eapply reaches_step; eassumption.
  - injection Hrun as <-. exists s. auto.
Qed.

Lemma step_stay_ahead s s' :
  stay_ahead s -> Francesco.step s = Ok s' -> stay_ahead s'.
Proof.
  intros Hs Hstep.
  destruct s as [dk ph dh pt dt pm b mv p].
  unfold Francesco.step in Hstep. unfold stay_ahead in *. cbn in Hs, Hstep.
  destruct p; cbn in Hs, Hstep.
  - deal_in Hstep. injection Hstep as <-. cbn. exact Hs.
  - deal_in Hstep. injection Hstep as <-. cbn. exact Hs.
  - destruct mv as [|m rest]; [discriminate|].
    destruct m; cbn in Hstep.
    + deal_in Hstep. destruct Hs as [Hs|Hs]; [discriminate|].
      repeat branch_in Hstep; injection Hstep as <-; cbn; auto.
    + injection Hstep as <-. cbn. exact I.
    + injection Hstep as <-. cbn. destruct Hs as [Hs|Hs]; [discriminate | exact Hs].
  - branch_in Hstep.
    + injection Hstep as <-. cbn. exact I.
    + destruct ((Z.of_nat (length ph) =? 2) && (Francesco.calculate_total ph false =? 21)).
      * destruct (Float.int_mul b Float.lit_2_5) as [x|e]; [|discriminate].
        cbn [bind] in Hstep.
        destruct (Float.to_int x) as [w|e]; [|discriminate].
        injection Hstep as <-. cbn. exact I.
      * injection Hstep as <-. cbn. exact I.
  - branch_in Hstep.
    + deal_in Hstep. branch_in Hstep; injection Hstep as <-; cbn; exact I.
    + injection Hstep as <-. cbn. exact I.
  - repeat branch_in Hstep; injection Hstep as <-; cbn; exact I.
  - injection Hstep as <-. cbn. exact I.
Qed.

Lemma reaches_stay_ahead s0 s : stay_ahead s0 -> reaches s0 s -> stay_ahead s.
Proof.
  intros H0 Hr. induction Hr as [|s s' _ IH Hstep]; [exact H0|].
  eapply step_stay_ahead; eassumption.
Qed.

(** ** The payout never goes wrong but by overflow *)

Lemma shr_1_nonneg r : 0 <= shr_m r -> 0 <= shr_m (shr_1 r).
Proof.
  destruct r as [m r s]. cbn [shr_m]. intros Hm. unfold shr_1.
  destruct m as [|[p|p|]|p]; cbn [shr_m]; lia.
Qed.

Lemma shr_nonneg r e n : 0 <= shr_m r -> 0 <= shr_m (fst (shr r e n)).
Proof.
  intros Hr. unfold shr. destruct n as [|p|p]; cbn [fst]; try exact Hr.
  rewrite iter_pos_nat. induction (Pos.to_nat p) as [|k IH]; [exact Hr|].
  cbn [Nat.iter nat_rect]. apply shr_1_nonneg. exact IH.
Qed.

Lemma shr_record_of_loc_m m l : shr_m (shr_record_of_loc m l) = m.
Proof. destruct l as [|[| |]]; reflexivity. Qed.

Lemma round_nearest_even_nonneg m l : 0 <= m -> 0 <= round_nearest_even m l.
Proof.
  intros Hm. unfold round_nearest_even.
  destruct l as [|[| |]]; try lia. destruct (Z.even m); lia.
Qed.

(** Rounding a mantissa that is not negative gives no NaN and keeps the
    sign. *)
Lemma round_aux_signed sx mx e l :
  0 <= mx -> signed_as sx (binary_round_aux 53 1024 sx mx e l).
Proof.
  intros Hm. unfold binary_round_aux, shr_fexp.
  pose proof (shr_nonneg (shr_record_of_loc mx l) e
                (fexp 53 1024 (Zdigits2 mx + e) - e)) as H1.
  rewrite shr_record_of_loc_m in H1. specialize (H1 Hm).
  destruct (shr (shr_record_of_loc mx l) e (fexp 53 1024 (Zdigits2 mx + e) - e))
    as [r1 e1]. cbn [fst] in H1.
  set (m2 := round_nearest_even (shr_m r1) (loc_of_shr_record r1)).
  assert (H2 : 0 <= m2) by (apply round_nearest_even_nonneg; exact H1).
  pose proof (shr_nonneg (shr_record_of_loc m2 loc_Exact) e1
                (fexp 53 1024 (Zdigits2 m2 + e1) - e1)) as H3.
  rewrite shr_record_of_loc_m in H3. specialize (H3 H2).
  destruct (shr (shr_record_of_loc m2 loc_Exact) e1 (fexp 53 1024 (Zdigits2 m2 + e1) - e1))
    as [r2 e2]. cbn [fst] in H3.
  destruct (shr_m r2) as [|p|p]; cbn; try lia.
  - reflexivity.
  - destruct (e2 <=? 1024 - 53); reflexivity.
Qed.

(** [int(bet * 2.5)] for a positive bet: an amount that is not negative, or
    [OverflowError]. *)
Lemma blackjack_win_cases (stake : Z) :
  0 < stake ->
  (exists win, blackjack_win stake = Ok win /\ 0 <= win) \/
  blackjack_win stake = Raise OverflowError.
Proof.
  intros Hpos. destruct stake as [|p|p]; try lia.
  unfold blackjack_win, Float.int_mul, Float.of_int, Float.prec, Float.emax.
  cbn [binary_normalize]. unfold binary_round.
  destruct (shl_align p 0 (fexp 53 1024 (Zpos (digits2_pos p) + 0))) as [mz ez].
  pose proof (round_aux_signed false (Zpos mz) ez loc_Exact ltac:(lia)) as Hf.
  destruct (binary_round_aux 53 1024 false (Zpos mz) ez loc_Exact) as [s|s| |s m e];
    cbn in Hf; try contradiction; subst s; cbn [bind].
  - left. exists 0. split; [reflexivity | lia].
  - right. reflexivity.
  - unfold Float.mul, Float.lit_2_5, Float.prec, Float.emax. cbn [SFmul xorb].
    pose proof (round_aux_signed false (Zpos (m * 5629499534213120)) (e + -51)
                  loc_Exact ltac:(lia)) as Hg.
    destruct (binary_round_aux 53 1024 false (Zpos (m * 5629499534213120)) (e + -51)
                loc_Exact) as [s|s| |s m' e'];
      cbn in Hg; try contradiction; subst s; cbn [Float.to_int].
    + left. exists 0. split; [reflexivity | lia].
    + right. reflexivity.
    + left. eexists. split; [reflexivity|]. cbn [cond_Zopp].
      destruct e' as [|q|q].
      * apply Z.shiftl_nonneg. lia.
      * apply Z.shiftl_nonneg. lia.
      * apply Z.shiftr_nonneg. lia.
Qed.

(** X6. A round on a shuffled double deck never runs out of cards: at every
    point the player holds at most 21 cards and the dealer at most 17, at
    least 66 cards are left in the deck, and no step fails with the
    [IndexError] of [deal_card].  A step can only fail with [EOFError], at
    the prompt when no answer is left, or with [OverflowError], when the
    blackjack payout is computed. *)
Theorem round_never_out_of_cards : forall s0 s,
  round_start s0 ->
  reaches s0 s ->
  (length (player_hand s) <= 21)%nat /\
  (length (dealer_hand s) <= 17)%nat /\
  (66 <= length (deck s))%nat /\
  (forall e, Francesco.step s = Raise e ->
     (e = EOFError /\ at_pc s = PlayerLoop /\ moves s = []) \/
     (e = OverflowError /\ at_pc s = PlayerDone)).
Proof.
  intros s0 s H0 Hr.
  pose proof (reaches_hand_bounds s0 s H0 Hr) as [Hp Hd].
  pose proof (cards_total s0 s H0 Hr) as Htot.
  repeat split; try lia.
  intros e He.
  destruct (step_raise_cases s0 s e H0 Hr He) as [H|[Hpc Hw]]; [left; exact H|].
  right. split; [|exact Hpc].
  assert (Hstake : 0 < bet s0).
  { destruct H0 as (shuffled & answers & money & stake & _ & Hb & ->). cbn. lia. }
  destruct (blackjack_win_cases (bet s0) Hstake) as [(w & Hok & _)|Hraise]; congruence.
Qed.

(** After the deal and four hits on the deck of [create_deck] reversed, 98
    cards are left. *)
Lemma round_never_out_of_cards_witness :
  match Francesco.run 6 (start (rev Francesco.create_deck) [hit; hit; hit; hit] 100 10) with
  | Ok s => (66 <= length (deck s))%nat /\ length (deck s) = 98%nat
  | Raise _ => False
  end.
Proof.
  destruct (Francesco.run 6 (start (rev Francesco.create_deck) [hit; hit; hit; hit] 100 10))
    as [s|e] eqn:Hs; [|vm_compute in Hs; discriminate Hs].
  split.
  - apply (round_never_out_of_cards
             (start (rev Francesco.create_deck) [hit; hit; hit; hit] 100 10) s).
    + apply round_start_intro; [apply Permutation_rev | lia].
    + eapply run_reaches, Hs.
  - vm_compute in Hs. injection Hs as <-. reflexivity.
Defined.

(** How a round can fail. *)
Lemma play_round_raise shuffled answers money stake e :
  Francesco.shuffle_deck Francesco.create_deck shuffled ->
  0 < stake <= money ->
  Francesco.play_round shuffled answers money stake = Raise e ->
  (e = EOFError /\ ~ In stay answers) \/
  (e = OverflowError /\ 2 ^ 53 <= 5 * stake).
Proof.
  intros Hs Hb Hrun.
  pose proof (round_start_intro shuffled answers money stake Hs Hb) as H0.
  destruct (run_raise _ _ _ e H0 (reaches_start _) Hrun) as (s1 & Hr1 & Hstep).
  destruct (step_raise_cases _ s1 e H0 Hr1 Hstep) as [(-> & Hpc & Hmv)|[Hpc Hw]].
  - left. split; [reflexivity|]. intros Hin.
    assert (Hsa : stay_ahead s1).
    { apply (reaches_stay_ahead (start shuffled answers money stake)); [exact Hin | exact Hr1]. }
    unfold stay_ahead in Hsa. rewrite Hpc, Hmv in Hsa. exact Hsa.
  - right. cbn [bet start] in Hw.
    destruct (blackjack_win_cases stake ltac:(lia)) as [(w & Hok & _)|Hraise];
      [congruence|].
    split; [congruence|].
    destruct (Z.lt_ge_cases (5 * stake) (2 ^ 53)) as [Hfit|Hbig]; [|exact Hbig].
    rewrite (blackjack_win_exact stake ltac:(lia) Hfit) in Hw. discriminate.
Qed.

(** ** The session *)

Lemma play_round_money shuffled answers money stake s :
  Francesco.shuffle_deck Francesco.create_deck shuffled ->
  0 < stake <= money ->
  Francesco.play_round shuffled answers money stake = Ok s ->
  0 <= player_money s.
Proof.
  intros Hs Hb Hrun.
  destruct (play_round_inv _ _ _ _ _ Hs Hb Hrun) as [(_ & _ & Hpc) [o Ho]].
  rewrite Ho in Hpc. cbn in Hpc. destruct Hpc as [_ Hpc].
  destruct o.
  - destruct Hpc as (_ & _ & ->). lia.
  - destruct Hpc as (_ & _ & Hw).
    destruct (blackjack_win_cases stake ltac:(lia)) as [(w & Hok & Hpos)|Hraise].
    + rewrite Hok in Hw. injection Hw as Hw. lia.
    + rewrite Hraise in Hw. discriminate.
  - destruct Hpc as (_ & _ & _ & _ & ->). lia.
  - destruct Hpc as (_ & _ & _ & _ & _ & ->). lia.
  - destruct Hpc as (_ & _ & _ & _ & _ & ->). lia.
  - destruct Hpc as (_ & _ & _ & _ & _ & ->). lia.
Qed.

Lemma play_round_printable shuffled answers money stake s :
  Francesco.shuffle_deck Francesco.create_deck shuffled ->
  0 < stake <= money ->
  Francesco.play_round shuffled answers money stake = Ok s ->
  (exists o, at_pc s = Settled o) /\
  (at_pc s = Settled Busted \/ at_pc s = Settled Blackjack \/
   0 <= player_money s <= money + stake).
Proof.
  intros Hs Hb Hrun.
  destruct (play_round_inv _ _ _ _ _ Hs Hb Hrun) as [(_ & _ & Hpc) [o Ho]].
  split; [exists o; exact Ho|].
  rewrite Ho in Hpc. cbn in Hpc. destruct Hpc as [_ Hpc]. rewrite Ho.
  destruct o; auto.
  - destruct Hpc as (_ & _ & _ & _ & ->). right. right. lia.
  - destruct Hpc as (_ & _ & _ & _ & _ & ->). right. right. lia.
  - destruct Hpc as (_ & _ & _ & _ & _ & ->). right. right. lia.
  - destruct Hpc as (_ & _ & _ & _ & _ & ->). right. right. lia.
Qed.

Lemma int_str_limit_pos : 0 < int_str_limit.
Proof. unfold int_str_limit. apply Z.pow_pos_nonneg; lia. Qed.

Lemma print_int_ok n : 0 <= n < int_str_limit -> print_int n = Ok tt.
Proof.
  intros Hn. unfold print_int.
  destruct (Z.ltb_spec (Z.abs n) int_str_limit); [reflexivity | lia].
Qed.

Lemma print_int_raise n e :
  print_int n = Raise e -> e = ValueError /\ int_str_limit <= Z.abs n.
Proof.
  unfold print_int. destruct (Z.ltb_spec (Z.abs n) int_str_limit) as [Hlt|Hge];
    [discriminate|].
  intros Hr. injection Hr as <-. auto.
Qed.

(** How an iteration can fail: as the round does, or at the line that
    prints the balance after the outcome. *)
Lemma play_iteration_raise shuffled answers money stake e :
  Francesco.shuffle_deck Francesco.create_deck shuffled ->
  0 < stake <= money ->
  play_iteration shuffled answers money stake = Raise e ->
  (e = EOFError /\ ~ In stay answers) \/
  (e = OverflowError /\ 2 ^ 53 <= 5 * stake) \/
  (e = ValueError /\ int_str_limit <= money + stake).
Proof.
  intros Hs Hb Hrun. unfold play_iteration in Hrun.
  destruct (Francesco.play_round shuffled answers money stake) as [s|e'] eqn:Hround;
    cbn [bind] in Hrun.
  - destruct (play_round_printable _ _ _ _ _ Hs Hb Hround) as [[o Ho] Hm].
    rewrite Ho in *.
    assert (Hprint : print_int (player_money s) = Raise e /\
                     0 <= player_money s <= money + stake).
    { destruct o; try discriminate Hrun;
        (destruct Hm as [Hm|[Hm|Hm]]; try discriminate Hm);
        (split; [|exact Hm]);
        (destruct (print_int (player_money s)) as [u|e0]; cbn [bind] in Hrun;
         [discriminate Hrun | injection Hrun as ->; reflexivity]). }
    destruct Hprint as [Hp Hm'].
    destruct (print_int_raise _ _ Hp) as [-> Hbig].
    right. right. split; [reflexivity | lia].
  - injection Hrun as <-.
    destruct (play_round_raise _ _ _ _ e' Hs Hb Hround) as [H|H]; auto.
Qed.

Lemma play_iteration_ok shuffled answers money stake s :
  play_iteration shuffled answers money stake = Ok s ->
  Francesco.play_round shuffled answers money stake = Ok s.
Proof.
  unfold play_iteration.
  destruct (Francesco.play_round shuffled answers money stake) as [s'|e];
    cbn [bind]; [|discriminate].
  destruct (at_pc s') as [| | | | | |[| | | | |]];
    try (destruct (print_int (player_money s')); cbn [bind]); congruence.
Qed.

(** X7. An iteration of the betting loop returns: on a shuffled double deck,
    with a bet that passed the checks of [main] and is below 2^53 / 5, a
    [stay] among the answers to come, and a balance that stays printable if
    the bet is won (below 10^4300), the round ends settled and the
    iteration comes to its end with no exception.  When an iteration does
    fail, it is with [EOFError] and no [stay] among the answers, with
    [OverflowError] and a bet of 2^53 / 5 or more, or with [ValueError] and
    balance plus bet at 10^4300 or more. *)
Theorem play_round_returns : forall shuffled answers money stake,
  Francesco.shuffle_deck Francesco.create_deck shuffled ->
  0 < stake <= money ->
  (In stay answers -> 5 * stake < 2 ^ 53 -> money + stake < int_str_limit ->
   exists s o,
     play_iteration shuffled answers money stake = Ok s /\
     Francesco.play_round shuffled answers money stake = Ok s /\
     at_pc s = Settled o) /\
  (forall e, play_iteration shuffled answers money stake = Raise e ->
     (e = EOFError /\ ~ In stay answers) \/
     (e = OverflowError /\ 2 ^ 53 <= 5 * stake) \/
     (e = ValueError /\ int_str_limit <= money + stake)).
Proof.
  intros shuffled answers money stake Hs Hb. split.
  - intros Hin Hfit Hprint.
    destruct (play_iteration shuffled answers money stake) as [s|e] eqn:Hrun.
    + pose proof (play_iteration_ok _ _ _ _ _ Hrun) as Hround.
      destruct (play_round_settles _ _ _ _ _ Hround) as [_ [o Ho]].
      exists s, o. auto.
    + destruct (play_iteration_raise _ _ _ _ e Hs Hb Hrun)
        as [[_ Hno]|[[_ Hbig]|[_ Hbig]]]; [contradiction | lia | lia].
  - intros e. apply play_iteration_raise; assumption.
Qed.

(** The round on the deck of [create_deck] with the answers hit, stay. *)
Lemma play_round_returns_witness :
  exists s o,
    play_iteration Francesco.create_deck [hit; stay] 100 10 = Ok s /\
    Francesco.play_round Francesco.create_deck [hit; stay] 100 10 = Ok s /\
    at_pc s = Settled o.
Proof.
  apply (play_round_returns Francesco.create_deck [hit; stay] 100 10).
  - apply Permutation_refl.
  - lia.
  - right. left. reflexivity.
  - cbn. lia.
  - pose proof int_str_limit_pos. unfold int_str_limit in *.
    apply Z.lt_le_trans with (10 ^ 3); [cbn; lia|].
    apply Z.pow_le_mono_r; lia.
Defined.

Lemma in_skipn {T : Type} (x : T) (n : nat) (l : list T) : In x (skipn n l) -> In x l.
Proof.
  intros H. rewrite <- (firstn_skipn n l). apply in_or_app. right. exact H.
Qed.

Lemma betting_loop_enough : forall fuel shuffle played money lines,
  (length lines < fuel)%nat ->
  exists r, betting_loop fuel shuffle played money lines = Some r.
Proof.
  induction fuel as [|fuel IH]; intros shuffle played money lines Hlen; [lia|].
  cbn [betting_loop].
  destruct (money >? 0); [|eexists; reflexivity].
  destruct (print_int money); [|eexists; reflexivity].
  destruct lines as [|l rest]; [eexists; reflexivity|].
  cbn [length] in Hlen.
  destruct (is_cashout l); [eexists; reflexivity|].
  destruct (as_int l) as [b|]; [|apply IH; lia].
  destruct ((b <=? 0) || (b >? money)); [apply IH; lia|].
  destruct (play_iteration (shuffle played) (map as_move rest) money b) as [s|e];
    [|eexists; reflexivity].
  apply IH. rewrite length_skipn. lia.
Qed.

Lemma betting_loop_result : forall fuel shuffle played money lines r,
  (forall n, Francesco.shuffle_deck Francesco.create_deck (shuffle n)) ->
  0 <= money ->
  betting_loop fuel shuffle played money lines = Some r ->
  match r with
  | Ok cash =>
      0 <= cash < int_str_limit /\
      (0 < cash -> exists l, In l lines /\ is_cashout l = true)
  | Raise e => e = EOFError \/ e = OverflowError \/ e = ValueError
  end.
Proof.
  induction fuel as [|fuel IH]; intros shuffle played money lines r Hsh Hm Hrun;
    [discriminate|].
  cbn [betting_loop] in Hrun.
  destruct (Z.gtb_spec money 0) as [Hpos|Hzero].
  - destruct (print_int money) as [[]|e] eqn:Hprint.
    2:{ injection Hrun as <-. destruct (print_int_raise _ _ Hprint) as [-> _]. auto. }
    assert (Hlim : money < int_str_limit).
    { unfold print_int in Hprint.
      destruct (Z.ltb_spec (Z.abs money) int_str_limit); [lia | discriminate]. }
    destruct lines as [|l rest].
    + injection Hrun as <-. left. reflexivity.
    + destruct (is_cashout l) eqn:Hc.
      * injection Hrun as <-. split; [lia|]. intros _. exists l.
        split; [left; reflexivity | exact Hc].
      * assert (Hrest : forall r',
                  match r' with
                  | Ok cash => 0 <= cash < int_str_limit /\
                               (0 < cash -> exists l', In l' rest /\ is_cashout l' = true)
                  | Raise e => e = EOFError \/ e = OverflowError \/ e = ValueError
                  end ->
                  match r' with
                  | Ok cash => 0 <= cash < int_str_limit /\
                               (0 < cash ->
                                exists l', In l' (l :: rest) /\ is_cashout l' = true)
                  | Raise e => e = EOFError \/ e = OverflowError \/ e = ValueError
                  end).
        { intros [cash|e] H; [|exact H]. destruct H as [H1 H2]. split; [exact H1|].
          intros Hc'. destruct (H2 Hc') as (l' & Hin & Hl').
          exists l'. split; [right; exact Hin | exact Hl']. }
        destruct (as_int l) as [b|]; [|apply Hrest, (IH _ _ _ _ _ Hsh Hm Hrun)].
        destruct (Z.leb_spec b 0) as [Hb0|Hb0]; cbn [orb] in Hrun;
          [apply Hrest, (IH _ _ _ _ _ Hsh Hm Hrun)|].
        destruct (Z.gtb_spec b money) as [Hbm|Hbm];
          [apply Hrest, (IH _ _ _ _ _ Hsh Hm Hrun)|].
        assert (Hb : 0 < b <= money) by lia.
        destruct (play_iteration (shuffle played) (map as_move rest) money b)
          as [s|e] eqn:Hround.
        -- pose proof (play_iteration_ok _ _ _ _ _ Hround) as Hround'.
           pose proof (play_round_money _ _ _ _ _ (Hsh played) Hb Hround') as Hs.
           specialize (IH _ _ _ _ _ Hsh Hs Hrun).
           apply Hrest. destruct r as [cash|e]; [|exact IH].
           destruct IH as [H1 H2]. split; [exact H1|].
           intros Hc'. destruct (H2 Hc') as (l' & Hin & Hl').
           exists l'. split; [eapply in_skipn, Hin | exact Hl'].
        -- injection Hrun as <-.
           destruct (play_iteration_raise _ _ _ _ e (Hsh played) Hb Hround)
             as [[-> _]|[[-> _]|[-> _]]]; auto.
  - injection Hrun as <-. pose proof int_str_limit_pos.
    split; [lia|]. intros; lia.
Qed.

Lemma buy_in_positive : forall lines money rest,
  buy_in lines = Ok (money, rest) ->
  0 < money /\
  exists skipped l,
    lines = skipped ++ l :: rest /\ as_int l = Some money /\
    Forall (fun l' => forall k, as_int l' = Some k -> k <= 0) skipped.
Proof.
  induction lines as [|l lines IH]; intros money rest H; [discriminate|].
  cbn [buy_in] in H.
  destruct (as_int l) as [k|] eqn:Hk.
  - destruct (Z.gtb_spec k 0) as [Hpos|Hneg].
    + injection H as <- <-. split; [exact Hpos|].
      exists [], l. repeat split; auto.
    + destruct (IH _ _ H) as (Hm & skipped & l' & -> & Hl' & Hall).
      split; [exact Hm|]. exists (l :: skipped), l'. repeat split; auto.
      constructor; [|exact Hall]. intros k' Hk'. congruence.
  - destruct (IH _ _ H) as (Hm & skipped & l' & -> & Hl' & Hall).
    split; [exact Hm|]. exists (l :: skipped), l'. repeat split; auto.
    constructor; [|exact Hall]. intros k' Hk'. congruence.
Qed.

Lemma buy_in_raise : forall lines e,
  buy_in lines = Raise e ->
  e = EOFError /\ Forall (fun l' => forall k, as_int l' = Some k -> k <= 0) lines.
Proof.
  induction lines as [|l lines IH]; intros e H.
  - injection H as <-. split; [reflexivity | constructor].
  - cbn [buy_in] in H.
    destruct (as_int l) as [k|] eqn:Hk.
    + destruct (Z.gtb_spec k 0) as [Hpos|Hneg]; [discriminate|].
      destruct (IH _ H) as [-> Hall]. split; [reflexivity|].
      constructor; [|exact Hall]. intros k' Hk'. congruence.
    + destruct (IH _ H) as [-> Hall]. split; [reflexivity|].
      constructor; [|exact Hall]. intros k' Hk'. congruence.
Qed.

(** X8. The buy-in loop accepts the first line that is a positive integer
    and nothing else: the lines before it are skipped, the lines after it are
    left for the bets, and when no line is a positive integer the program
    ends with [EOFError]. *)
Theorem buy_in_first_positive : forall lines : list line,
  (forall money rest, buy_in lines = Ok (money, rest) ->
     0 < money /\
     exists skipped l,
       lines = skipped ++ l :: rest /\ as_int l = Some money /\
       Forall (fun l' => forall k, as_int l' = Some k -> k <= 0) skipped) /\
  (forall e, buy_in lines = Raise e ->
     e = EOFError /\
     Forall (fun l' => forall k, as_int l' = Some k -> k <= 0) lines) /\
  (forall skipped l rest money,
     Forall (fun l' => forall k, as_int l' = Some k -> k <= 0) skipped ->
     as_int l = Some money -> 0 < money ->
     buy_in (skipped ++ l :: rest) = Ok (money, rest)).
Proof.
  intros lines. split; [|split].
  - apply buy_in_positive.
  - apply buy_in_raise.
  - intros skipped l rest money Hall Hl Hpos.
    induction Hall as [|l' skipped Hl' _ IH]; cbn [app buy_in].
    + rewrite Hl. destruct (Z.gtb_spec money 0); [reflexivity | lia].
    + destruct (as_int l') as [k|] eqn:Hk; [|exact IH].
      specialize (Hl' k eq_refl). destruct (Z.gtb_spec k 0); [lia | exact IH].
Qed.

(** X9. A session always ends, with the amount cashed out or with an
    exception.  The amount is never negative, it is printable (below
    10^4300), and it is positive only if "cashout" was typed; the exception
    is [EOFError] (the input ended), [OverflowError] (a blackjack payout too
    large for a float) or [ValueError] (a balance of more than 4300 digits
    to print), never the [IndexError] of an empty deck. *)
Theorem main_outcome : forall (shuffle : nat -> list card) (lines : list line),
  (forall n, Francesco.shuffle_deck Francesco.create_deck (shuffle n)) ->
  exists r,
    main shuffle lines = Some r /\
    match r with
    | Ok cash =>
        0 <= cash < int_str_limit /\
        (0 < cash -> exists l, In l lines /\ is_cashout l = true)
    | Raise e => e = EOFError \/ e = OverflowError \/ e = ValueError
    end.
Proof.
  intros shuffle lines Hsh. unfold main.
  destruct (buy_in lines) as [[money rest]|e] eqn:Hbuy.
  - destruct (buy_in_positive _ _ _ Hbuy) as (Hpos & skipped & l & -> & _ & _).
    destruct (betting_loop_enough (S (length rest)) shuffle 0 money rest ltac:(lia))
      as [r Hr].
    assert (Hm : 0 <= money) by lia.
    pose proof (betting_loop_result _ _ _ _ _ r Hsh Hm Hr) as Hres.
    rewrite Hr.
    destruct r as [cash|e].
    + destruct Hres as [H1 H2].
      exists (Ok cash). rewrite (print_int_ok cash H1). cbn [bind].
      split; [reflexivity|]. split; [exact H1|].
      intros Hc. destruct (H2 Hc) as (l' & Hin & Hl'). exists l'. split; [|exact Hl'].
      apply in_or_app. right. right. exact Hin.
    + exists (Raise e). split; [reflexivity | exact Hres].
  - exists (Raise e). split; [reflexivity|].
    destruct (buy_in_raise _ _ Hbuy) as [-> _]. left. reflexivity.
Qed.

(** The session of two lines at the bet prompt: 100 is bought in, 10 is bet
    on the deck of [create_deck], the player stays on the Ace of Spades and
    loses to King and Queen, then cashes out 90. *)
Lemma main_outcome_witness :
  let lines :=
    [ {| as_int := Some 100; is_cashout := false; as_move := other |};
      {| as_int := Some 10; is_cashout := false; as_move := other |};
      {| as_int := None; is_cashout := false; as_move := stay |};
      {| as_int := None; is_cashout := true; as_move := other |} ] in
  main (fun _ => Francesco.create_deck) lines = Some (Ok 90) /\
  exists r,
    main (fun _ => Francesco.create_deck) lines = Some r /\
    match r with
    | Ok cash =>
        0 <= cash < int_str_limit /\
        (0 < cash -> exists l, In l lines /\ is_cashout l = true)
    | Raise e => e = EOFError \/ e = OverflowError \/ e = ValueError
    end.
Proof.
  intros lines. split.
  - vm_compute. reflexivity.
  - apply main_outcome. intros n. apply Permutation_refl.
Defined.

(** ** How high a total can get *)

Lemma raw_total_app h1 h2 : raw_total (h1 ++ h2) = raw_total h1 + raw_total h2.
Proof.
  induction h1 as [|c h1 IH]; [reflexivity|].
  change (raw_total ((c :: h1) ++ h2)) with (Francesco.card_value c + raw_total (h1 ++ h2)).
  change (raw_total (c :: h1)) with (Francesco.card_value c + raw_total h1).
  rewrite IH. lia.
Qed.

Lemma count_aces_app h1 h2 : count_aces (h1 ++ h2) = (count_aces h1 + count_aces h2)%nat.
Proof.
  unfold count_aces. rewrite filter_app, length_app. reflexivity.
Qed.

(** One more card: the new soft total is within 21, or at most 10 above
    the old one. *)
Lemma soft_total_snoc hand c :
  Francesco.calculate_total (hand ++ [c]) false <= 21 \/
  Francesco.calculate_total (hand ++ [c]) false
    <= Francesco.calculate_total hand false + 10.
Proof.
  rewrite !calculate_total_soft, raw_total_app, count_aces_app.
  destruct (adjust_aces_spec (count_aces hand) (raw_total hand))
    as (k & Hk & -> & _ & _).
  destruct (adjust_aces_spec (count_aces hand + count_aces [c]) (raw_total hand + raw_total [c]))
    as (k' & Hk' & Heq' & Hstop' & _).
  rewrite Heq' in *.
  destruct (Nat.eq_dec k' (count_aces hand + count_aces [c])) as [Hlast|Hnot].
  - right. subst k'.
    assert (Hraw : raw_total [c] = Francesco.card_value c)
      by (unfold raw_total; cbn [fold_right]; lia).
    assert (Hcnt : count_aces [c] = if is_ace c then 1%nat else 0%nat)
      by (unfold count_aces; cbn [filter]; destruct (is_ace c); reflexivity).
    pose proof (card_value_bounds c) as Hc.
    rewrite Hraw, Hcnt. destruct (is_ace c); lia.
  - left. apply Hstop'. lia.
Qed.

Lemma step_totals s0 s s' :
  round_inv s0 s ->
  Francesco.calculate_total (player_hand s) false <= 30 /\
  Francesco.calculate_total (dealer_hand s) false <= 26 ->
  Francesco.step s = Ok s' ->
  Francesco.calculate_total (player_hand s') false <= 30 /\
  Francesco.calculate_total (dealer_hand s') false <= 26.
Proof.
  intros (_ & _ & Hpc) [Hp Hd] Hstep.
  destruct s as [dk ph dh pt dt pm b mv p].
  unfold Francesco.step in Hstep. cbn in Hpc, Hstep, Hp, Hd.
  destruct p; cbn in Hpc, Hstep.
  - deal_in Hstep. injection Hstep as <-. cbn.
    pose proof (soft_total_one [c] eq_refl). lia.
  - deal_in Hstep. injection Hstep as <-. cbn.
    pose proof (soft_total_one [c] eq_refl). lia.
  - destruct Hpc as (_ & _ & Hph).
    destruct mv as [|m rest]; [discriminate|].
    destruct m; cbn in Hstep.
    + deal_in Hstep.
      assert (Francesco.calculate_total ph false <= 20).
      { destruct Hph as [Hone|[_ Hlt]]; [|lia].
        pose proof (soft_total_one ph Hone). lia. }
      pose proof (soft_total_snoc ph c).
      repeat branch_in Hstep; injection Hstep as <-; cbn; lia.
    + injection Hstep as <-. cbn. lia.
    + injection Hstep as <-. cbn. lia.
  - branch_in Hstep.
    + injection Hstep as <-. cbn. lia.
    + destruct ((Z.of_nat (length ph) =? 2) && (Francesco.calculate_total ph false =? 21)).
      * destruct (Float.int_mul b Float.lit_2_5) as [x|e]; [|discriminate].
        cbn [bind] in Hstep.
        destruct (Float.to_int x) as [w|e]; [|discriminate].
        injection Hstep as <-. cbn. lia.
      * injection Hstep as <-. cbn. lia.
  - destruct Hpc as (_ & _ & _ & _ & Hdt & _).
    branch_in Hstep.
    + deal_in Hstep.
      pose proof (soft_total_snoc dh c).
      branch_in Hstep; injection Hstep as <-; cbn; lia.
    + injection Hstep as <-. cbn. lia.
  - repeat branch_in Hstep; injection Hstep as <-; cbn; lia.
  - injection Hstep as <-. cbn. lia.
Qed.

(** X10. However a round goes, the player's hand never scores more than 30
    and the dealer's never more than 26. *)
Theorem totals_bounded : forall s0 s,
  round_start s0 ->
  reaches s0 s ->
  Francesco.calculate_total (player_hand s) false <= 30 /\
  Francesco.calculate_total (dealer_hand s) false <= 26.
Proof.
  intros s0 s H0 Hr. induction Hr as [|s s' Hr IH Hstep].
  - destruct H0 as (shuffled & answers & money & stake & _ & _ & ->).
    cbn. split; vm_compute; discriminate.
  - eapply step_totals; [apply (reaches_inv s0 s H0 Hr) | exact IH | exact Hstep].
Qed.

(** The bust of Two, Four, Five, Six and Seven scores 24. *)
Lemma totals_bounded_witness :
  match Francesco.play_round (rev Francesco.create_deck) [hit; hit; hit; hit] 100 10 with
  | Ok s =>
      Francesco.calculate_total (player_hand s) false = 24 /\
      Francesco.calculate_total (player_hand s) false <= 30
  | Raise _ => False
  end.
Proof.
  destruct (Francesco.play_round (rev Francesco.create_deck) [hit; hit; hit; hit] 100 10)
    as [s|e] eqn:Hs; [|vm_compute in Hs; discriminate Hs].
  split.
  - vm_compute in Hs. injection Hs as <-. reflexivity.
  - apply (totals_bounded (start (rev Francesco.create_deck) [hit; hit; hit; hit] 100 10) s).
    + apply round_start_intro; [apply Permutation_rev | lia].
    + apply (play_round_settles _ _ _ _ _ Hs).
Defined.

(** ** [display_hand] *)

Lemma str_tail a b s t : String.String a s = String.String b t -> s = t.
Proof. intros H. injection H as _ H. exact H. Qed.

(** The text of a card, whatever follows it, tells the card and what
    follows. *)
Lemma card_str_prefix c1 c2 t1 t2 :
  String.append (card_str c1) t1 = String.append (card_str c2) t2 ->
  c1 = c2 /\ t1 = t2.
Proof.
  destruct c1 as [v1 s1], c2 as [v2 s2]. unfold card_str. cbn [value suit]. intros H.
  assert (Hv : v1 = v2 /\
               String.append (suit_str s1) t1 = String.append (suit_str s2) t2).
  { destruct v1, v2; cbn in H; try discriminate H;
      (split; [reflexivity|]); repeat (apply str_tail in H); exact H. }
  destruct Hv as [-> Hs].
  assert (Hsuit : s1 = s2 /\ t1 = t2).
  { destruct s1, s2; cbn in Hs; try discriminate Hs;
      (split; [reflexivity|]); repeat (apply str_tail in Hs); exact Hs. }
  destruct Hsuit as [-> ->]. split; reflexivity.
Qed.

Lemma display_hand_cons c hand :
  display_hand (c :: hand)
  = String.append (card_str c)
      (match hand with
       | [] => String.EmptyString
       | _ :: _ => String.append ", "%string (display_hand hand)
       end).
Proof.
  unfold display_hand. cbn [map String.concat].
  destruct hand as [|c' hand]; cbn [map].
  - destruct (card_str c) as [|a s] eqn:E; [reflexivity|].
    clear E. cbn [String.append]. f_equal.
    induction s as [|a' s IH]; cbn [String.append]; [reflexivity | f_equal; exact IH].
  - reflexivity.
Qed.

(** X11. [display_hand] shows a hand without ambiguity: two hands are shown
    as the same text only when they are the same cards in the same order. *)
Theorem display_hand_injective : forall h1 h2 : list card,
  display_hand h1 = display_hand h2 <-> h1 = h2.
Proof.
  intros h1 h2. split; [|intros ->; reflexivity].
  revert h2. induction h1 as [|c1 h1 IH]; intros h2 H.
  - destruct h2 as [|c2 h2]; [reflexivity|].
    rewrite display_hand_cons in H. destruct c2 as [v s].
    destruct v; discriminate H.
  - destruct h2 as [|c2 h2].
    + rewrite display_hand_cons in H. destruct c1 as [v s].
      destruct v; discriminate H.
    + rewrite !display_hand_cons in H.
      apply card_str_prefix in H. destruct H as [-> Ht].
      f_equal. apply IH.
      destruct h1 as [|c h1], h2 as [|c' h2]; try reflexivity; try discriminate Ht.
      cbn [String.append] in Ht. do 2 apply str_tail in Ht. exact Ht.
Qed.

(** ** What a round does to the balance *)

(** X12. A round never costs more than the bet and never takes the balance
    below zero: a bust or a win of the dealer takes exactly the bet, a push
    leaves the balance as it was, and every other outcome, the blackjack
    included, leaves at least the balance the round started with. *)
Theorem round_loses_at_most_bet : forall shuffled answers money stake s,
  Francesco.shuffle_deck Francesco.create_deck shuffled ->
  0 < stake <= money ->
  Francesco.play_round shuffled answers money stake = Ok s ->
  0 <= money - stake <= player_money s /\
  (at_pc s = Settled Busted \/ at_pc s = Settled DealerWins ->
     player_money s = money - stake) /\
  (at_pc s = Settled Push -> player_money s = money) /\
  (at_pc s = Settled Blackjack \/ at_pc s = Settled DealerBusts \/
   at_pc s = Settled YouWin -> money <= player_money s).
Proof.
  intros shuffled answers money stake s Hs Hb Hrun.
  destruct (play_round_inv _ _ _ _ _ Hs Hb Hrun) as [(_ & _ & Hpc) [o Ho]].
  rewrite Ho in Hpc. cbn in Hpc. destruct Hpc as [_ Hpc]. rewrite Ho.
  assert (Hcase : forall o', Settled o = Settled o' -> o = o')
    by (intros o' H; injection H; auto).
  destruct o.
  - destruct Hpc as (_ & _ & ->).
    repeat split; try lia; intros H; try reflexivity;
      repeat (destruct H as [H|H]); discriminate H.
  - destruct Hpc as (_ & _ & Hw).
    destruct (blackjack_win_cases stake ltac:(lia)) as [(w & Hok & Hpos)|Hraise];
      [|rewrite Hraise in Hw; discriminate].
    rewrite Hok in Hw. injection Hw as Hw.
    repeat split; try lia; intros H; try lia;
      repeat (destruct H as [H|H]); discriminate H.
  - destruct Hpc as (_ & _ & _ & _ & ->).
    repeat split; try lia; intros H; try lia;
      repeat (destruct H as [H|H]); discriminate H.
  - destruct Hpc as (_ & _ & _ & _ & _ & ->).
    repeat split; try lia; intros H; try lia;
      repeat (destruct H as [H|H]); discriminate H.
  - destruct Hpc as (_ & _ & _ & _ & _ & ->).
    repeat split; try lia; intros H; try lia;
      repeat (destruct H as [H|H]); discriminate H.
  - destruct Hpc as (_ & _ & _ & _ & _ & ->).
    repeat split; try lia; intros H; try lia;
      repeat (destruct H as [H|H]); discriminate H.
Qed.

(** The blackjack on the deck of [create_deck]: 10 out of 100 are bet, 125
    is the balance afterwards. *)
Lemma round_loses_at_most_bet_witness :
  match Francesco.play_round Francesco.create_deck [hit] 100 10 with
  | Ok s => 0 <= 100 - 10 <= player_money s /\ player_money s = 125
  | Raise _ => False
  end.
Proof.
  destruct (Francesco.play_round Francesco.create_deck [hit] 100 10)
    as [s|e] eqn:Hs; [|vm_compute in Hs; discriminate Hs].
  split.
  - apply (round_loses_at_most_bet Francesco.create_deck [hit] 100 10 s).
    + apply Permutation_refl.
    + lia.
    + exact Hs.
  - vm_compute in Hs. injection Hs as <-. reflexivity.
Defined.

(** ** Answers that are neither hit nor stay *)

Lemma run_final n s : (steps_left s <= n)%nat -> final (Francesco.run n s).
Proof.
  intros Hn. destruct (Francesco.run n s) as [s'|e] eqn:Hrun; [|exact I].
  apply (run_settles n s s' Hn Hrun).
Qed.

Lemma run_final_agree : forall a b t,
  final (Francesco.run a t) -> final (Francesco.run b t) ->
  Francesco.run a t = Francesco.run b t.
Proof.
  induction a as [|a IH]; intros b t Ha Hb.
  - cbn in Ha. destruct Ha as [o Ho].
    rewrite (run_settled b t o Ho). reflexivity.
  - destruct b as [|b].
    + cbn in Hb. destruct Hb as [o Ho].
      rewrite (run_settled (S a) t o Ho). reflexivity.
    + rewrite (run_S a t) in *. rewrite (run_S b t) in *.
      destruct (Francesco.step t) as [t'|e]; cbn [bind] in *; [|reflexivity].
      apply IH; assumption.
Qed.

(** A step reads the valid answers only: with the invalid ones left out of
    the input it does the same. *)
Lemma step_sim s t :
  same_but_moves s t ->
  (at_pc s = PlayerLoop -> forall rest, moves s <> other :: rest) ->
  match Francesco.step s, Francesco.step t with
  | Ok s', Ok t' => same_but_moves s' t'
  | Raise e, Raise e' => e = e'
  | _, _ => False
  end.
Proof.
  intros H Hno.
  destruct s as [dk ph dh pt dt pm b mv p], t as [dk' ph' dh' pt' dt' pm' b' mv' p'].
  unfold same_but_moves in *. cbn in H, Hno.
  destruct H as (-> & -> & -> & -> & -> & -> & -> & -> & ->).
  unfold Francesco.step. cbn.
  destruct p; cbn.
  - destruct (Francesco.deal_card dk) as [[c d]|e]; cbn; auto 10.
  - destruct (Francesco.deal_card dk) as [[c d]|e]; cbn; auto 10.
  - destruct mv as [|m rest]; cbn; [reflexivity|].
    destruct m; cbn.
    + destruct (Francesco.deal_card dk) as [[c d]|e]; cbn; [|reflexivity].
      destruct (Francesco.calculate_total (ph ++ [c]) false >? 21); cbn; auto 10.
      destruct (Francesco.calculate_total (ph ++ [c]) false =? 21); cbn; auto 10.
    + auto 10.
    + exfalso. eapply (Hno eq_refl). reflexivity.
  - destruct (Francesco.calculate_total ph false >? 21); cbn; auto 10.
    destruct ((Z.of_nat (length ph) =? 2) && (Francesco.calculate_total ph false =? 21));
      cbn; auto 10.
    destruct (Float.int_mul b Float.lit_2_5) as [x|e]; cbn; [|reflexivity].
    destruct (Float.to_int x) as [w|e]; cbn; auto 10.
  - destruct (dt <? 17); cbn; auto 10.
    destruct (Francesco.deal_card dk) as [[c d]|e]; cbn; [|reflexivity].
    destruct (Francesco.calculate_total (dh ++ [c]) false >? 21); cbn; auto 10.
  - destruct (dt >? 21); cbn; auto 10.
    destruct (pt >? dt); cbn; auto 10.
    destruct (pt <? dt); cbn; auto 10.
  - auto 10.
Qed.

Lemma step_other s rest :
  at_pc s = PlayerLoop -> moves s = other :: rest ->
  Francesco.step s = Ok (set_moves rest s).
Proof.
  intros Hpc Hmv. unfold Francesco.step. rewrite Hpc, Hmv. reflexivity.
Qed.

Lemma run_sim : forall n s t,
  same_but_moves s t ->
  final (Francesco.run n s) ->
  exists m,
    final (Francesco.run m t) /\
    match Francesco.run n s, Francesco.run m t with
    | Ok s', Ok t' => same_but_moves s' t'
    | Raise e, Raise e' => e = e'
    | _, _ => False
    end.
Proof.
  induction n as [|n IH]; intros s t Hst Hfin.
  - cbn in Hfin. destruct Hfin as [o Ho]. exists O. cbn [Francesco.run].
    split; [|exact Hst]. exists o.
    destruct Hst as (_ & _ & _ & _ & _ & _ & _ & Hpc & _). congruence.
  - rewrite run_S in *.
    assert (Hcase : (at_pc s = PlayerLoop /\ exists rest, moves s = other :: rest) \/
                    (at_pc s = PlayerLoop -> forall rest, moves s <> other :: rest)).
    { destruct (moves s) as [|[| |] rest].
      - right. intros _ rest. discriminate.
      - right. intros _ rest'. discriminate.
      - right. intros _ rest'. discriminate.
      - destruct (at_pc s); try (right; intros H; discriminate H).
        left. split; [reflexivity|]. exists rest. reflexivity. }
    destruct Hcase as [[Hpc [rest Hmv]]|Hno].
    + rewrite (step_other s rest Hpc Hmv) in *. cbn [bind] in *.
      apply IH; [|exact Hfin].
      destruct s as [dk ph dh pt dt pm b mv p]. unfold same_but_moves in *. cbn in *.
      subst mv. cbn in Hst. exact Hst.
    + pose proof (step_sim s t Hst Hno) as Hstep.
      destruct (Francesco.step s) as [s1|e] eqn:Hs1;
        destruct (Francesco.step t) as [t1|e'] eqn:Ht1; try contradiction;
        cbn [bind] in *.
      * destruct (IH s1 t1 Hstep Hfin) as (m & Hm & Hres).
        exists (S m). rewrite run_S, Ht1. cbn [bind]. auto.
      * exists 1%nat. rewrite run_S, Ht1. cbn [bind]. split; [exact I | exact Hstep].
Qed.

(** X13. Answers that are neither hit nor stay change nothing: the round
    played with them and the round played on the same deck without them end
    in the same state (the same hands, deck, totals, balance and outcome),
    or with the same exception. *)
Theorem invalid_answers_ignored : forall shuffled answers money stake,
  match Francesco.play_round shuffled answers money stake,
        Francesco.play_round shuffled (valid_moves answers) money stake with
  | Ok s, Ok t => same_but_moves s t
  | Raise e, Raise e' => e = e'
  | _, _ => False
  end.
Proof.
  intros shuffled answers money stake. unfold Francesco.play_round.
  set (s0 := start shuffled answers money stake).
  set (t0 := start shuffled (valid_moves answers) money stake).
  assert (Hfs : final (Francesco.run (round_fuel s0) s0))
    by (apply run_final; unfold steps_left, round_fuel; cbn; lia).
  assert (Hft : final (Francesco.run (round_fuel t0) t0))
    by (apply run_final; unfold steps_left, round_fuel; cbn; lia).
  assert (H0 : same_but_moves s0 t0) by (unfold same_but_moves; cbn; auto 10).
  destruct (run_sim (round_fuel s0) s0 t0 H0 Hfs) as (m & Hm & Hres).
  rewrite (run_final_agree (round_fuel t0) m t0 Hft Hm). exact Hres.
Qed.
